(** * The proto runtime of angular-proto: nodes, ancestry, configuration, hooks

    A shallow embedding of [src/core/src/lib/proto.ts] and
    [src/core/src/lib/proto-ancestry.ts].

    JavaScript objects that the code compares with [===] or mutates in place
    are heap cells named by a reference ([Ref]); an [InjectionToken] is such
    an object too and is compared by its reference.  The hierarchical
    injector of the framework is modelled by what a lookup sees: the scopes
    from the current element up to the root, nearest first. *)

From Stdlib Require Import ZArith String List Bool Lia.
From stdpp Require Import base option list gmap strings.
Import ListNotations.

Local Open Scope string_scope.
Local Open Scope list_scope.

(** ** Values, exceptions *)

Definition Ref := nat.
Definition InjectionToken := nat.

Inductive Value :=
  | VBool (b : bool)
  | VNum (z : Z)
  | VStr (s : string).

Definition Value_eqb (a b : Value) : bool :=
  match a, b with
  | VBool x, VBool y => Bool.eqb x y
  | VNum x, VNum y => Z.eqb x y
  | VStr x, VStr y => String.eqb x y
  | _, _ => false
  end.

(** What a call can throw: the framework's missing-provider error, an
    [Error] with the message built by the code, or the [TypeError] of calling
    a property that is not there.  The missing-provider error is recorded
    with the token whose lookup failed; its text is the framework's and is
    not part of the model (it names the token in development builds and is
    an error code in production builds). *)
Inductive Exception :=
  | NullInjectorError (tokenDesc : string)
  | Error (message : string)
  | TypeError (message : string).

Inductive Outcome (A : Type) :=
  | Returned (a : A)
  | Thrown (e : Exception).
Arguments Returned {A} a.
Arguments Thrown {A} e.

Global Instance Outcome_ret : MRet Outcome := fun _ a => Returned a.
Global Instance Outcome_fmap : FMap Outcome := fun _ _ f m =>
  match m with
  | Returned a => Returned (f a)
  | Thrown e => Thrown e
  end.
Global Instance Outcome_bind : MBind Outcome := fun _ _ k m =>
  match m with
  | Returned a => k a
  | Thrown e => Thrown e
  end.

(** ** Ancestor entries and the ancestry view (proto-ancestry.ts) *)

(** [{ token, state }]: [entry_ref] is the identity of the entry object
    itself, [state] the reference of the proto state it points to. *)
Record ProtoAncestorEntry := {
  entry_ref : Ref;
  token : InjectionToken;
  state : Ref;
}.

Global Instance ProtoAncestorEntry_eq_dec : EqDecision ProtoAncestorEntry.
Proof. solve_decision. Defined.

(** [p === q] on entry objects. *)
Definition same_object (p q : ProtoAncestorEntry) : bool :=
  Nat.eqb (entry_ref p) (entry_ref q).

(** [e => e.token === tok] *)
Definition hasToken (tok : InjectionToken) (e : ProtoAncestorEntry) : bool :=
  Nat.eqb (token e) tok.

(** [computed(() => source().filter(e => e.token === tok))] *)
Record Computed := {
  c_source : Ref;
  c_token : InjectionToken;
}.

(** The object returned by [createProtoAncestry], with the variables its
    closure keeps: [cachedParent] is [None] while [undefined], [Some None]
    once it holds [null]. *)
Record ProtoAncestry := {
  ancestors : list ProtoAncestorEntry;
  currentToken : InjectionToken;
  allChildrenSignal : Ref;
  sameTypeChildren : Ref;
  cachedParent : option (option ProtoAncestorEntry);
  childrenByTypeCache : gmap InjectionToken Ref;
}.

Definition set_cachedParent (c : option (option ProtoAncestorEntry))
    (a : ProtoAncestry) : ProtoAncestry :=
  {| ancestors := ancestors a; currentToken := currentToken a;
     allChildrenSignal := allChildrenSignal a;
     sameTypeChildren := sameTypeChildren a;
     cachedParent := c; childrenByTypeCache := childrenByTypeCache a |}.

Definition set_childrenByTypeCache (m : gmap InjectionToken Ref)
    (a : ProtoAncestry) : ProtoAncestry :=
  {| ancestors := ancestors a; currentToken := currentToken a;
     allChildrenSignal := allChildrenSignal a;
     sameTypeChildren := sameTypeChildren a;
     cachedParent := cachedParent a; childrenByTypeCache := m |}.

(** [get parent()] *)
Definition parent (a : ProtoAncestry)
    : option ProtoAncestorEntry * ProtoAncestry :=
  match cachedParent a with
  | None =>
      let found := List.find (hasToken (currentToken a)) (ancestors a) in
      (found, set_cachedParent (Some found) a)
  | Some p => (p, a)
  end.

Definition parentOfType (tok : InjectionToken) (a : ProtoAncestry)
    : option ProtoAncestorEntry :=
  List.find (hasToken tok) (ancestors a).

Definition ancestorsOfType (tok : InjectionToken)
    (predicate : option (ProtoAncestorEntry -> bool)) (a : ProtoAncestry)
    : list ProtoAncestorEntry :=
  let ofType := List.filter (hasToken tok) (ancestors a) in
  match predicate with
  | Some p => List.filter p ofType
  | None => ofType
  end.

Definition ancestorsSameType (predicate : option (ProtoAncestorEntry -> bool))
    (a : ProtoAncestry) : list ProtoAncestorEntry :=
  ancestorsOfType (currentToken a) predicate a.

Definition allAncestors (predicate : option (ProtoAncestorEntry -> bool))
    (a : ProtoAncestry) : list ProtoAncestorEntry :=
  match predicate with
  | Some p => List.filter p (ancestors a)
  | None => ancestors a
  end.

(** ** Controlled inputs *)

(** Modelled from the spec: [controlledInput] comes from
    [@angular-proto/core/utils], which is not among the sources.  The
    container pairs the template-driven value with an override and the flag
    that says whether the override is active (section 4.1); its accessors are
    the ones the test "should have correct controlled signal values" reads. *)
Record ControlledInput := {
  templateValue : Value;
  controlValue : Value;
  isControlled : bool;
}.

Definition controlledInput (initial : Value) : ControlledInput :=
  {| templateValue := initial; controlValue := initial; isControlled := false |}.

(** The effective value: calling the input signal itself. *)
Definition effective (c : ControlledInput) : Value :=
  if isControlled c then controlValue c else templateValue c.

Definition control (v : Value) (c : ControlledInput) : ControlledInput :=
  {| templateValue := templateValue c; controlValue := v; isControlled := true |}.

Definition reset (c : ControlledInput) : ControlledInput :=
  {| templateValue := templateValue c; controlValue := controlValue c;
     isControlled := false |}.

(** The surrounding template binds a value to the input: the container
    tracks it as its template value.  Section 4.1 says of an active override
    that template updates are tracked but not surfaced; the repository's test
    expects [isControlled()] to be [false] after such an update.  What an
    update does to an active override is therefore not fixed here: it is the
    parameter [release], asked with the container before the update and the
    value bound. *)
Definition ReleasePolicy := ControlledInput -> Value -> bool.

Definition setTemplate (release : ReleasePolicy) (v : Value)
    (c : ControlledInput) : ControlledInput :=
  {| templateValue := v; controlValue := controlValue c;
     isControlled := isControlled c && negb (release c v) |}.

(** Section 4.1 read literally: an update never releases the override. *)
Definition neverRelease : ReleasePolicy := fun _ _ => false.

(** Two other readings: the override is released by every update that changes
    the template value, or by the update that brings the template value to
    the override's. *)
Definition releaseOnChange : ReleasePolicy :=
  fun c v => negb (Value_eqb v (templateValue c)).

Definition releaseOnAgreement : ReleasePolicy :=
  fun c v => Value_eqb v (controlValue c).

(** A member of the host instance: an [input()] not yet wrapped, an input
    wrapped by [controlledInput], or anything else. *)
Inductive Field :=
  | RawInput (v : Value)
  | Controlled (c : ControlledInput)
  | Plain (v : Value).

Definition Instance := list (string * Field).

Definition isInputSignal (f : Field) : bool :=
  match f with
  | RawInput _ | Controlled _ => true
  | Plain _ => false
  end.

(** ** Configuration values and deep merge *)

#[warnings="-register-all"] Inductive Cfg :=
  | CNum (z : Z)
  | CStr (s : string)
  | CArr (items : list Cfg)
  | CObj (fields : list (string * Cfg)).

Fixpoint assoc {A} (k : string) (l : list (string * A)) : option A :=
  match l with
  | [] => None
  | (k', v) :: rest => if String.eqb k k' then Some v else assoc k rest
  end.

Definition has_key {A} (k : string) (l : list (string * A)) : bool :=
  match assoc k l with Some _ => true | None => false end.

(** Modelled from the spec: [deepMerge] comes from
    [@angular-proto/core/utils], which is not among the sources.  Section 4.2:
    objects are merged key by key, recursively; anything else (numbers,
    strings, arrays) is atomic and the right-hand value replaces the left-hand
    one; keys the contribution omits keep the value they had.  The inputs are
    not mutated: the result is a new value. *)
Fixpoint merge (a b : Cfg) {struct a} : Cfg :=
  match a, b with
  | CObj fa, CObj fb =>
      CObj
        ((fix go (l : list (string * Cfg)) : list (string * Cfg) :=
            match l with
            | [] => []
            | (k, va) :: rest =>
                (k, match assoc k fb with
                    | Some vb => merge va vb
                    | None => va
                    end) :: go rest
            end) fa
         ++ List.filter (fun kv => negb (has_key (fst kv) fa)) fb)
  | _, _ => b
  end.

(** [deepMerge(defaultCfg, ...contributions)] *)
Definition deepMerge (defaultCfg : Cfg) (contributions : list Cfg) : Cfg :=
  fold_left merge contributions defaultCfg.

(** The value found by following a path of keys. *)
Fixpoint lookup_path (p : list string) (c : Cfg) : option Cfg :=
  match p with
  | [] => Some c
  | k :: p' =>
      match c with
      | CObj fs =>
          match assoc k fs with
          | Some v => lookup_path p' v
          | None => None
          end
      | _ => None
      end
  end.

Definition is_leaf (c : Cfg) : bool :=
  match c with
  | CObj _ => false
  | _ => true
  end.

(** The leaf a value defines at a path, if it defines one. *)
Definition leaf_at (p : list string) (c : Cfg) : option Cfg :=
  match lookup_path p c with
  | Some v => if is_leaf v then Some v else None
  | None => None
  end.

(** [fits b a]: [b] has the shape of a deep partial of [a]: an object only
    where [a] has one, with keys of [a] only, and a leaf only where [a] has
    a leaf. *)
#[warnings="-register-all"] Inductive fits : Cfg -> Cfg -> Prop :=
  | fits_leaf a b : is_leaf a = true -> is_leaf b = true -> fits b a
  | fits_obj fa fb :
      (forall k vb, In (k, vb) fb ->
         exists va, assoc k fa = Some va /\ fits vb va) ->
      fits (CObj fb) (CObj fa).

(** ** The world: proto state objects, computed signals, logs *)

Definition Hook := nat.

(** The object [Object.assign(source, props)]: the writable signal [source]
    (its value, and whether it still has its [set] and [update] members)
    together with the properties assigned to it.  [allChildren] is the value
    of the signal kept under the [ALL_CHILDREN] symbol.  [protoId],
    [injector] and [elementRef] play no part in what follows. *)
Record ProtoStateObj := {
  value : option Instance;
  has_set : bool;
  has_update : bool;
  protoName : string;
  config : Cfg;
  ancestry : ProtoAncestry;
  allChildren : list ProtoAncestorEntry;
}.

Record World := {
  heap : gmap Ref ProtoStateObj;
  computeds : gmap Ref Computed;
  next : Ref;
  console : list string;
  hookCalls : list (Hook * Ref);
}.

Definition emptyWorld : World :=
  {| heap := ∅; computeds := ∅; next := 0; console := []; hookCalls := [] |}.

Definition with_heap (f : gmap Ref ProtoStateObj -> gmap Ref ProtoStateObj)
    (w : World) : World :=
  {| heap := f (heap w); computeds := computeds w; next := next w;
     console := console w; hookCalls := hookCalls w |}.

(** A new object: its reference is the next unused one. *)
Definition alloc (w : World) : Ref * World :=
  (next w,
   {| heap := heap w; computeds := computeds w; next := S (next w);
      console := console w; hookCalls := hookCalls w |}).

(** [computed(fn)]: a new signal object. *)
Definition computed (c : Computed) (w : World) : Ref * World :=
  (next w,
   {| heap := heap w; computeds := <[next w := c]> (computeds w);
      next := S (next w); console := console w; hookCalls := hookCalls w |}).

Definition warn (msg : string) (w : World) : World :=
  {| heap := heap w; computeds := computeds w; next := next w;
     console := console w ++ [msg]; hookCalls := hookCalls w |}.

(** [hook(proto)]: the call is recorded. *)
Definition callHook (proto : Ref) (w : World) (h : Hook) : World :=
  {| heap := heap w; computeds := computeds w; next := next w;
     console := console w; hookCalls := hookCalls w ++ [(h, proto)] |}.

(** Reading the signal kept under [ALL_CHILDREN] of a state object. *)
Definition readAllChildren (s : Ref) (w : World) : list ProtoAncestorEntry :=
  match heap w !! s with
  | Some o => allChildren o
  | None => []
  end.

(** Reading a computed signal: its function is run on the current value of
    its source. *)
Definition readComputed (h : Ref) (w : World) : list ProtoAncestorEntry :=
  match computeds w !! h with
  | Some c => List.filter (hasToken (c_token c)) (readAllChildren (c_source c) w)
  | None => []
  end.

Definition set_allChildren (l : list ProtoAncestorEntry) (o : ProtoStateObj)
    : ProtoStateObj :=
  {| value := value o; has_set := has_set o; has_update := has_update o;
     protoName := protoName o; config := config o; ancestry := ancestry o;
     allChildren := l |}.

(** [cSignal.update(f)] on the children signal of the state object [s]. *)
Definition updateChildren (f : list ProtoAncestorEntry -> list ProtoAncestorEntry)
    (w : World) (s : Ref) : World :=
  with_heap (alter (fun o => set_allChildren (f (allChildren o)) o) s) w.

(** *** createProtoAncestry, childrenOfType, allChildren *)

Definition createProtoAncestry (parentChain : list ProtoAncestorEntry)
    (tok : InjectionToken) (childrenSignal : Ref) (w : World)
    : ProtoAncestry * World :=
  let '(same, w1) :=
    computed {| c_source := childrenSignal; c_token := tok |} w in
  ({| ancestors := rev parentChain; currentToken := tok;
      allChildrenSignal := childrenSignal; sameTypeChildren := same;
      cachedParent := None; childrenByTypeCache := ∅ |}, w1).

Definition childrenOfType (tok : InjectionToken) (a : ProtoAncestry) (w : World)
    : Ref * ProtoAncestry * World :=
  match childrenByTypeCache a !! tok with
  | Some cached => (cached, a, w)
  | None =>
      let '(h, w1) :=
        computed {| c_source := allChildrenSignal a; c_token := tok |} w in
      (h, set_childrenByTypeCache (<[tok := h]> (childrenByTypeCache a)) a, w1)
  end.

(** [ancestry.children()]: reading the same-type computed signal. *)
Definition children (a : ProtoAncestry) (w : World) : list ProtoAncestorEntry :=
  readComputed (sameTypeChildren a) w.

(** [ancestry.allChildren()()] *)
Definition readAll (a : ProtoAncestry) (w : World) : list ProtoAncestorEntry :=
  readAllChildren (allChildrenSignal a) w.

(** ** The injector, as the code uses it *)

(** A lookup walks the scopes (elements) from the current one up to the
    root.  For a token with one provider per scope, [path] lists for each
    scope, nearest first, the value provided there, if any; a nearer provider
    shadows the farther ones.  [skipSelf] starts the walk at the enclosing
    scope.  A lookup that finds nothing returns [null] when [optional], and
    throws the framework's missing-provider error otherwise.  These are the
    two options the code sets or reads itself. *)
Record InjectOptions := {
  optional : bool;
  skipSelf : bool;
}.

Definition noOptions : InjectOptions := {| optional := false; skipSelf := false |}.

Fixpoint nearest {A} (path : list (option A)) : option A :=
  match path with
  | [] => None
  | Some v :: _ => Some v
  | None :: up => nearest up
  end.

Definition inject {A} (tokenDesc : string) (path : list (option A))
    (opts : InjectOptions) : Outcome (option A) :=
  let visible := if skipSelf opts then tail path else path in
  match nearest visible with
  | Some v => Returned (Some v)
  | None =>
      if optional opts then Returned None
      else Thrown (NullInjectorError tokenDesc)
  end.

(** A [multi: true] token collects, in registration order (the providers of
    host directives before those of their host), the values registered in
    one scope; the lookup returns the collection of the nearest scope that
    registers any, and does not add those of the scopes above it.  [path]
    lists the registrations scope by scope, nearest first. *)
Fixpoint injectMulti {A} (path : list (list A)) : option (list A) :=
  match path with
  | [] => None
  | [] :: up => injectMulti up
  | here :: _ => Some here
  end.

(** ** createProto (proto.ts) *)

(** What [createProto(defaultConfig)(type)] closes over: the name of the
    type, the public token (the only token compared by identity), and the
    default configuration. *)
Record Proto := {
  name : string;
  publicToken : InjectionToken;
  defaultConfig : option Cfg;
}.

Definition publicTokenDesc (P : Proto) : string := "ProtoToken:" +:+ name P.

(** *** injectConfig *)

(** [provideConfig(cfg)] registers [cfg] (or what the function [cfg] returns
    in the injector of its scope) as one more value of the multi token
    [configContributionToken]; [contributionPath] lists these values scope by
    scope.  [injectConfig] reads the token once, with [optional: true], and
    does not look at the enclosing scopes itself. *)
Definition injectConfig (P : Proto) (contributionPath : list (list Cfg)) : Cfg :=
  let contributions := default [] (injectMulti contributionPath) in
  let defaultCfg := default (CObj []) (defaultConfig P) in
  deepMerge defaultCfg contributions.

(** *** provideHooks, injectHooks *)

(** The factory registered by [provideHooks(...hooks)], given what
    [inject(hooksToken, { optional: true, skipSelf: true })] returns. *)
Definition provideHooks (hooks : list Hook) (parentHooks : option (list Hook))
    : list Hook :=
  default [] parentHooks ++ hooks.

(** [inject(hooksToken, { optional: true })] from a scope: [path] lists, scope
    by scope and nearest first, the hooks of the provider of [hooksToken] in
    effect there, if there is one.  The factory of the nearest provider runs
    in its own scope and, with [skipSelf], looks up the scopes above it. *)
Fixpoint injectHooksToken (path : list (option (list Hook))) : option (list Hook) :=
  match path with
  | [] => None
  | None :: up => injectHooksToken up
  | Some hooks :: up => Some (provideHooks hooks (injectHooksToken up))
  end.

Definition injectHooks (path : list (option (list Hook))) : list Hook :=
  default [] (injectHooksToken path).

(** [hooksToken] is not a multi token: an element's injector keeps one
    provider for it.  When [provideHooks] is registered more than once on one
    element, by a directive and by its host directives say, a later
    registration replaces an earlier one, and the provider in effect is the
    last.  [registered] lists the hooks of each registration of one element,
    in the order of registration. *)
Definition hookProvider (registered : list (list Hook)) : option (list Hook) :=
  last registered.

(** [scopes] lists the registrations of every scope, nearest first. *)
Definition hookProviders (scopes : list (list (list Hook)))
    : list (option (list Hook)) :=
  map hookProvider scopes.

Definition injectHooksIn (scopes : list (list (list Hook))) : list Hook :=
  injectHooks (hookProviders scopes).

(** *** provideState: the three factories *)

Definition set_props (s u : bool) (o : ProtoStateObj) : ProtoStateObj :=
  {| value := value o; has_set := s; has_update := u;
     protoName := protoName o; config := config o; ancestry := ancestry o;
     allChildren := allChildren o |}.

Definition set_value (v : option Instance) (o : ProtoStateObj) : ProtoStateObj :=
  {| value := v; has_set := has_set o; has_update := has_update o;
     protoName := protoName o; config := config o; ancestry := ancestry o;
     allChildren := allChildren o |}.

(** The factory of [internalProtoToken].  [chainLookup] is what
    [inject(PROTO_ANCESTRY_CHAIN, { optional: true, skipSelf: true })]
    returns.  The result is the new state object, the entry registered with
    the ancestors, and the world after the registration. *)
Definition internalFactory (P : Proto)
    (chainLookup : option (list ProtoAncestorEntry))
    (contributionPath : list (list Cfg)) (w : World)
    : Ref * ProtoAncestorEntry * World :=
  let chain := default [] chainLookup in
  let '(source, w1) := alloc w in
  let cfg := injectConfig P contributionPath in
  let '(anc, w2) := createProtoAncestry chain (publicToken P) source w1 in
  let protoState :=
    {| value := None; has_set := true; has_update := true;
       protoName := name P; config := cfg; ancestry := anc;
       allChildren := [] |} in
  let w3 := with_heap (insert source protoState) w2 in
  let '(r, w4) := alloc w3 in
  let selfEntry :=
    {| entry_ref := r; token := publicToken P; state := source |} in
  let w5 :=
    fold_left (fun w ancestor =>
                 updateChildren (fun c => c ++ [selfEntry]) w (state ancestor))
              chain w4 in
  (source, selfEntry, w5).

(** The callbacks given to [destroyRef.onDestroy], one per ancestor, run
    when the node is destroyed. *)
Definition onDestroy (selfEntry : ProtoAncestorEntry)
    (chain : list ProtoAncestorEntry) (w : World) : World :=
  fold_left (fun w ancestor =>
               updateChildren
                 (List.filter (fun p => negb (same_object p selfEntry)))
                 w (state ancestor))
            chain w.

(** The factory of [publicToken], given the object [inject(internalProtoToken)]
    returns: [delete publicProto.set; delete publicProto.update; return proto]. *)
Definition publicFactory (proto : Ref) (w : World) : Ref * World :=
  (proto, with_heap (alter (set_props false false) proto) w).

(** The factory of [PROTO_ANCESTRY_CHAIN]. *)
Definition chainFactory (P : Proto)
    (chainLookup : option (list ProtoAncestorEntry)) (currentProto : Ref)
    (w : World) : list ProtoAncestorEntry * World :=
  let chain := default [] chainLookup in
  let '(r, w1) := alloc w in
  (chain ++ [{| entry_ref := r; token := publicToken P; state := currentProto |}],
   w1).

(** *** Nodes *)

(** An element whose providers include [State.provide()], once the framework
    has run the factories there. *)
Record Node := {
  node_state : Ref;
  node_selfEntry : ProtoAncestorEntry;
  node_chain : list ProtoAncestorEntry;
  node_provided : list ProtoAncestorEntry;
}.

(** Creating a node below the scope that provides [enclosing] as its
    ancestry chain ([None] at the root). *)
Definition mount (P : Proto) (enclosing : option (list ProtoAncestorEntry))
    (contributionPath : list (list Cfg)) (w : World) : Node * World :=
  let '(s, selfEntry, w1) := internalFactory P enclosing contributionPath w in
  let '(provided, w2) := chainFactory P enclosing s w1 in
  ({| node_state := s; node_selfEntry := selfEntry;
      node_chain := default [] enclosing; node_provided := provided |}, w2).

(** The framework destroys the node: its [onDestroy] callbacks run. *)
Definition destroy (n : Node) (w : World) : World :=
  onDestroy (node_selfEntry n) (node_chain n) w.

(** An element that carries several protos: every [State.provide()] among its
    providers registers the factories of its own kind and one more provider
    of the token [PROTO_ANCESTRY_CHAIN], which all kinds share.  Each
    internal factory looks the chain up with [skipSelf] and gets the one of
    the enclosing element. *)
Fixpoint mountElement (protos : list Proto)
    (enclosing : option (list ProtoAncestorEntry))
    (contributionPath : list (list Cfg)) (w : World) : list Node * World :=
  match protos with
  | [] => ([], w)
  | P :: rest =>
      let '(n, w1) := mount P enclosing contributionPath w in
      let '(ns, w2) := mountElement rest enclosing contributionPath w1 in
      (n :: ns, w2)
  end.

(** [PROTO_ANCESTRY_CHAIN] is not a multi token: of the providers registered
    on one element the last replaces the others, so the chain the elements
    below look up is the one of the element's last proto, and the entries of
    the other protos of the element are not on it.  An element without a
    proto passes the enclosing chain on. *)
Definition providedChain (enclosing : option (list ProtoAncestorEntry))
    (nodes : list Node) : option (list ProtoAncestorEntry) :=
  match last nodes with
  | Some n => Some (node_provided n)
  | None => enclosing
  end.

(** *** Resolving the public token *)

(** [inject(publicToken, opts)]: [path] lists, nearest first, the state
    object of each scope that registers [State.provide()] for this kind.
    The factory of the public token runs on the object that is found. *)
Definition injectPublicToken (tokenDesc : string) (path : list (option Ref))
    (opts : InjectOptions) (w : World) : Outcome (option Ref * World) :=
  found ← inject tokenDesc path opts;
  match found with
  | Some proto => let '(pub, w1) := publicFactory proto w in Returned (Some pub, w1)
  | None => Returned (None, w)
  end.

Definition readValue (proto : Ref) (w : World) : option Instance :=
  match heap w !! proto with
  | Some o => value o
  | None => None
  end.

(** *** injectState *)

Definition notInitializedMessage (P : Proto) : string :=
  name P +:+ " proto not initialized. Call " +:+ name P +:+
  "Proto.initState() in your component or directive constructor.".

Definition injectState (P : Proto) (path : list (option Ref))
    (opts : InjectOptions) (w : World) : Outcome (option Ref * World) :=
  '(st, w1) ← injectPublicToken (publicTokenDesc P) path opts w;
  let uninitialized :=
    match st with
    | None => true
    | Some s => match readValue s w1 with None => true | Some _ => false end
    end in
  if negb (optional opts) && uninitialized
  then Thrown (Error (notInitializedMessage P))
  else Returned (st, w1).

(** *** initState *)

Definition calledTwiceMessage (P : Proto) : string :=
  "[angular-proto] " +:+ name P +:+
  "Proto(instance) was called more than once. " +:+ name P +:+
  "Proto(instance) should only be called once in the constructor.".

Definition noInputsMessage (P : Proto) : string :=
  "[angular-proto] " +:+ name P +:+
  "Proto.initState() called but no input signals found. " +:+
  "Did you forget to declare inputs with input()?".

(** The loop over [Object.keys(instance)]: every input signal is wrapped in
    place and counted; the other members are left as they are. *)
Fixpoint wrapInputs (instance : Instance) : Instance * nat :=
  match instance with
  | [] => ([], 0)
  | (key, f) :: rest =>
      let '(rest', n) := wrapInputs rest in
      match f with
      | RawInput v => ((key, Controlled (controlledInput v)) :: rest', S n)
      | Controlled c => ((key, Controlled c) :: rest', S n)
      | Plain v => ((key, Plain v) :: rest', n)
      end
  end.

(** [proto.set(v)]: a [TypeError] when the member has been deleted. *)
Definition protoSet (proto : Ref) (v : Instance) (w : World) : Outcome World :=
  match heap w !! proto with
  | Some o =>
      if has_set o
      then Returned (with_heap (insert proto (set_value (Some v) o)) w)
      else Thrown (TypeError "proto.set is not a function")
  | None => Thrown (TypeError "proto.set is not a function")
  end.

(** [initState(instance)], run in the scope of a node: [self] is the state
    object of that scope, if [State.provide()] is registered there, and
    [hookPath] the [provideHooks] registrations from that scope upwards. *)
Definition initState (devMode : bool) (P : Proto) (self : option Ref)
    (hookPath : list (option (list Hook))) (instance : Instance) (w : World)
    : Outcome (Ref * World) :=
  match self with
  | None => Thrown (NullInjectorError ("ProtoInternalState:" +:+ name P))
  | Some proto =>
      match readValue proto w with
      | Some _ =>
          if devMode then Thrown (Error (calledTwiceMessage P))
          else Returned (publicFactory proto w)
      | None =>
          let hooks := injectHooks hookPath in
          let '(wrapped, inputCount) := wrapInputs instance in
          let w1 :=
            if devMode && Nat.eqb inputCount 0
            then warn (noInputsMessage P) w else w in
          w2 ← protoSet proto wrapped w1;
          let w3 := fold_left (callHook proto) hooks w2 in
          Returned (publicFactory proto w3)
      end
  end.

(** ** injectProtoAncestor, injectProtoParent (proto-ancestry.ts) *)

Definition ancestorNotFoundMessage : string :=
  "Required ancestor state not found. " +:+
  "Ensure the parent proto is present in the DOM hierarchy.".

Definition injectProtoAncestor (tokenDesc : string) (path : list (option Ref))
    (options : InjectOptions) (w : World) : Outcome (option Ref * World) :=
  '(st, w1) ← injectPublicToken tokenDesc path
                 {| optional := true; skipSelf := true |} w;
  match st with
  | None =>
      if optional options then Returned (None, w1)
      else Thrown (Error ancestorNotFoundMessage)
  | Some s => Returned (Some s, w1)
  end.

Definition injectProtoParent (tokenDesc : string) (path : list (option Ref))
    (options : InjectOptions) (w : World) : Outcome (option Ref * World) :=
  injectPublicToken tokenDesc path
    {| optional := optional options; skipSelf := true |} w.

(** ** Error texts *)

(** [s.startsWith(p)] and [s.includes(sub)] *)
Fixpoint startsWith (s p : string) : bool :=
  match p, s with
  | EmptyString, _ => true
  | String a p', String b s' => Ascii.eqb a b && startsWith s' p'
  | String _ _, EmptyString => false
  end.

Fixpoint includes (s sub : string) : bool :=
  startsWith s sub
  || match s with
     | EmptyString => false
     | String _ s' => includes s' sub
     end.

(** Whether the message of what is thrown is known to say [text].  The
    messages of [Error] and [TypeError] are the ones written here; nothing
    is read from the framework's missing-provider error, whose text the code
    does not determine. *)
Definition mentions (e : Exception) (text : string) : bool :=
  match e with
  | NullInjectorError _ => false
  | Error message => includes message text
  | TypeError message => includes message text
  end.

(** ** Reading merged configurations *)

(** The leaf the first value of a list defines at a path. *)
Fixpoint firstLeaf (p : list string) (l : list Cfg) : option Cfg :=
  match l with
  | [] => None
  | c :: rest =>
      match leaf_at p c with
      | Some v => Some v
      | None => firstLeaf p rest
      end
  end.

(** ** The fixtures of the repository's tests *)

(** "config hierarchy": the default configuration and the three
    contributions, registered by the host directive of the host directive,
    by the host directive, and by the component itself. *)
Definition testConfig : Cfg :=
  CObj [("a", CObj [("a", CNum 0); ("b", CNum 0); ("c", CNum 0)]);
        ("b", CObj [("a", CNum 0); ("b", CNum 0); ("c", CNum 0)]);
        ("c", CNum 0); ("d", CNum 0)].

Definition ProtoTestComp : Proto :=
  {| name := "ProtoTestComp"; publicToken := 7; defaultConfig := Some testConfig |}.

Definition grandparentConfig : Cfg := CObj [("a", CObj [("a", CNum 1)])].

Definition parentConfig : Cfg :=
  CObj [("b", CObj [("a", CNum 2); ("b", CNum 2)])].

Definition selfConfig : Cfg :=
  CObj [("a", CObj [("b", CNum 3)]);
        ("b", CObj [("b", CNum 3); ("c", CNum 3)]);
        ("c", CNum 3)].

Definition expectedConfig : Cfg :=
  CObj [("a", CObj [("a", CNum 1); ("b", CNum 3); ("c", CNum 0)]);
        ("b", CObj [("a", CNum 2); ("b", CNum 3); ("c", CNum 3)]);
        ("c", CNum 3); ("d", CNum 0)].

(** "ancestry" and "children": two kinds. *)
Definition ParentDir : Proto :=
  {| name := "ParentDir"; publicToken := 1; defaultConfig := None |}.

Definition ChildDir : Proto :=
  {| name := "ChildDir"; publicToken := 2; defaultConfig := None |}.

Definition OuterDir : Proto :=
  {| name := "OuterDir"; publicToken := 3; defaultConfig := None |}.

(** The template of [TestChildrenComp]: p1 holds p2 (which holds c1 and p3)
    and c2 (which holds p4). *)
Record TestChildren := {
  tc_p1 : Node; tc_p2 : Node; tc_c1 : Node; tc_p3 : Node;
  tc_c2 : Node; tc_p4 : Node;
  tc_world : World;
}.

Definition renderTestChildren : TestChildren :=
  let '(p1, w) := mount ParentDir None [] emptyWorld in
  let '(p2, w) := mount ParentDir (Some (node_provided p1)) [] w in
  let '(c1, w) := mount ChildDir (Some (node_provided p2)) [] w in
  let '(p3, w) := mount ParentDir (Some (node_provided p2)) [] w in
  let '(c2, w) := mount ChildDir (Some (node_provided p1)) [] w in
  let '(p4, w) := mount ParentDir (Some (node_provided c2)) [] w in
  {| tc_p1 := p1; tc_p2 := p2; tc_c1 := c1; tc_p3 := p3;
     tc_c2 := c2; tc_p4 := p4; tc_world := w |}.

(** [showChildren.set(false)]: the block with c2 and p4 is destroyed. *)
Definition hideChildren (t : TestChildren) : World :=
  destroy (tc_c2 t) (destroy (tc_p4 t) (tc_world t)).

(** The template of [TestAncestryComp]: p1 > p2 > c1 > p3 > c2. *)
Definition renderTestAncestry : list Node * World :=
  let '(p1, w) := mount ParentDir None [] emptyWorld in
  let '(p2, w) := mount ParentDir (Some (node_provided p1)) [] w in
  let '(c1, w) := mount ChildDir (Some (node_provided p2)) [] w in
  let '(p3, w) := mount ParentDir (Some (node_provided c1)) [] w in
  let '(c2, w) := mount ChildDir (Some (node_provided p3)) [] w in
  ([p1; p2; c1; p3; c2], w).

(** [n.state.ancestry], read from the heap. *)
Definition ancestryOf (n : Node) (w : World) : option ProtoAncestry :=
  ancestry <$> heap w !! node_state n.

(** [n.state.ancestry.children()] and [n.state.ancestry.allChildren()()],
    as the states the entries point to. *)
Definition childrenStates (n : Node) (w : World) : list Ref :=
  match ancestryOf n w with
  | Some a => map state (children a w)
  | None => []
  end.

Definition allChildrenStates (n : Node) (w : World) : list Ref :=
  match ancestryOf n w with
  | Some a => map state (readAll a w)
  | None => []
  end.

(** [n.state.ancestry.parent?.state] *)
Definition parentState (n : Node) (w : World) : option Ref :=
  match ancestryOf n w with
  | Some a => state <$> fst (parent a)
  | None => None
  end.

(** The steps of "should have correct controlled signal values" on the
    [disabled] input of [dir1], and what the test expects to read after each:
    the effective value, [isControlled()], [controlValue()] and
    [templateValue()]. *)
Inductive ControlStep :=
  | Bind (v : Value)
  | Control (v : Value)
  | Reset.

Definition runStep (release : ReleasePolicy) (c : ControlledInput)
    (st : ControlStep) : ControlledInput :=
  match st with
  | Bind v => setTemplate release v c
  | Control v => control v c
  | Reset => reset c
  end.

Definition observe (c : ControlledInput) : Value * bool * Value * Value :=
  (effective c, isControlled c, controlValue c, templateValue c).

Definition dir1Steps : list ControlStep :=
  [Bind (VBool true); Control (VBool false); Bind (VBool false);
   Bind (VBool true)].

Definition dir1Expected : list (Value * bool * Value * Value) :=
  [(VBool true, false, VBool false, VBool true);
   (VBool false, true, VBool false, VBool true);
   (VBool false, false, VBool false, VBool false);
   (VBool true, false, VBool false, VBool true)].

(** What is read after each step of a run. *)
Fixpoint observations (release : ReleasePolicy) (c : ControlledInput)
    (steps : list ControlStep) : list (Value * bool * Value * Value) :=
  match steps with
  | [] => []
  | st :: rest =>
      observe (runStep release c st)
      :: observations release (runStep release c st) rest
  end.

(** The container passes the test: every expectation on [dir1], before the
    first step and after each. *)
Definition passesTest (release : ReleasePolicy) : Prop :=
  observe (controlledInput (VBool false))
  = (VBool false, false, VBool false, VBool false)
  /\ observations release (controlledInput (VBool false)) dir1Steps
     = dir1Expected.


(** Worlds used below: one [ParentDir] at the root, a second one inside
    it, and the first one after its initializer has run. *)
Definition oneNode : Node * World :=
  mount ParentDir (Some []) [] emptyWorld.

Definition twoNodes : Node * World :=
  mount ParentDir (Some (node_provided (fst oneNode))) [] (snd oneNode).

Definition dirInstance : Instance :=
  [("disabled", RawInput (VBool false)); ("enabled", Plain (VBool true))].

Definition initializedWorld : World :=
  match initState true ParentDir (Some (node_state (fst oneNode))) []
                  dirInstance (snd oneNode) with
  | Returned (_, w) => w
  | Thrown _ => snd oneNode
  end.

(** Two [ChildDir] siblings inside one [ParentDir]: their entries have the
    same token and point to state objects with the same contents. *)
Definition twins : Node * Node * Node * World :=
  let '(p, w) := mount ParentDir None [] emptyWorld in
  let '(a, w) := mount ChildDir (Some (node_provided p)) [] w in
  let '(b, w) := mount ChildDir (Some (node_provided p)) [] w in
  (p, a, b, w).

(** Comparing two entries by what they hold, the states compared by their
    contents and not by reference. *)
Definition stateContents (w : World) (s : Ref)
    : option (option Instance * string * Cfg) :=
  (fun o => (value o, protoName o, config o)) <$> heap w !! s.

Definition deepEqual (w : World) (p q : ProtoAncestorEntry) : Prop :=
  token p = token q /\ stateContents w (state p) = stateContents w (state q).

(** The chain entries that p1, p2 and c1 of [TestAncestryComp] provide. *)
Definition p1Entry : ProtoAncestorEntry :=
  {| entry_ref := 3; token := 1; state := 0 |}.

Definition p2Entry : ProtoAncestorEntry :=
  {| entry_ref := 7; token := 1; state := 4 |}.

Definition c1Entry : ProtoAncestorEntry :=
  {| entry_ref := 11; token := 2; state := 8 |}.

(** Reading [parent] again after [n] earlier reads. *)
Fixpoint parentAfter (n : nat) (a : ProtoAncestry)
    : option ProtoAncestorEntry * ProtoAncestry :=
  match n with
  | 0 => parent a
  | S n' => parentAfter n' (snd (parent a))
  end.

(** [s.ancestry.childrenOfType(tok)] on a state object: the view is the one
    object kept in the [ancestry] property for the life of the node, and the
    cache of [childrenOfType] is part of it, so what a call adds to the cache
    is there for the next call on the same state object. *)
Definition set_ancestry (a : ProtoAncestry) (o : ProtoStateObj) : ProtoStateObj :=
  {| value := value o; has_set := has_set o; has_update := has_update o;
     protoName := protoName o; config := config o; ancestry := a;
     allChildren := allChildren o |}.

Definition stateChildrenOfType (tok : InjectionToken) (s : Ref) (w : World)
    : option Ref * World :=
  match heap w !! s with
  | Some o =>
      let '(h, a, w1) := childrenOfType tok (ancestry o) w in
      (Some h, with_heap (insert s (set_ancestry a o)) w1)
  | None => (None, w)
  end.

(** A run of such calls, on any state objects and with any tokens, the
    handles dropped. *)
Definition stateChildrenOfTypeAll (calls : list (InjectionToken * Ref))
    (w : World) : World :=
  fold_left (fun w call => snd (stateChildrenOfType (fst call) (snd call) w))
            calls w.

(** [n.state.ancestry.children()], as entries. *)
Definition childrenEntries (n : Node) (w : World) : list ProtoAncestorEntry :=
  match ancestryOf n w with
  | Some a => children a w
  | None => []
  end.

(** An element with a [ParentDir] and a [ChildDir], and a [ParentDir] on
    an element nested in it. *)
Definition sharedElement : list Node * Node * World :=
  let '(here, w) := mountElement [ParentDir; ChildDir] None [] emptyWorld in
  let '(inner, w) := mount ParentDir (providedChain None here) [] w in
  (here, inner, w).

(** A run of [childrenOfType] calls, the handles dropped. *)
Definition childrenOfTypeAll (toks : list InjectionToken)
    (aw : ProtoAncestry * World) : ProtoAncestry * World :=
  fold_left (fun aw tok =>
               let '(_, a, w) := childrenOfType tok (fst aw) (snd aw) in (a, w))
            toks aw.

(** ** Predicates used in the statements *)

(** The cache of [parent] only ever holds what the search returns. *)
Definition parentCacheOk (a : ProtoAncestry) : Prop :=
  forall p, cachedParent a = Some p ->
            p = List.find (hasToken (currentToken a)) (ancestors a).

(** How often the state object [s] occurs in a chain. *)
Definition occurrences (s : Ref) (chain : list ProtoAncestorEntry) : nat :=
  count_occ Nat.eq_dec (map state chain) s.

(** References are handed out in increasing order, the entries of a
    descendant set are distinct objects, and the same-type view of every
    state object is the computed signal over its own descendant set. *)
Record wf (w : World) : Prop := {
  wf_heap : forall r o, heap w !! r = Some o -> r < next w;
  wf_computeds : forall h c, computeds w !! h = Some c -> h < next w;
  wf_distinct : forall r o, heap w !! r = Some o ->
    List.NoDup (map entry_ref (allChildren o));
  wf_bound : forall r o, heap w !! r = Some o ->
    Forall (fun e => entry_ref e < next w) (allChildren o);
  wf_view : forall r o, heap w !! r = Some o ->
    computeds w !! sameTypeChildren (ancestry o)
    = Some {| c_source := r; c_token := currentToken (ancestry o) |};
}.

(** Whether the state object [s] is on a chain. *)
Definition onChain (s : Ref) (chain : list ProtoAncestorEntry) : bool :=
  existsb (Nat.eqb s) (map state chain).

(** A chain as the chain factories build it: one entry per ancestor, each
    pointing to a state object that is there when the node registers with
    it.  The factories of the code are lazy, and the state object of an
    ancestor may be created inside the factory of the first descendant that
    looks the chain up; here the creation of the ancestor is then the earlier
    step.  References are the names the allocator of the model hands out:
    their order is the order of the steps, and nothing is read from it about
    the order in which the code creates its objects. *)
Definition chain_ok (w : World) (chain : list ProtoAncestorEntry) : Prop :=
  List.NoDup (map state chain) /\ Forall (fun e => state e < next w) chain.

(** One step of the life of a tree: a node is created under a chain, a node
    is destroyed, an initializer returns, the public token is resolved, a
    [childrenOfType] signal is asked for. *)
Inductive step : World -> World -> Prop :=
  | step_mount P chain cpath w :
      chain_ok w chain -> step w (snd (mount P (Some chain) cpath w))
  | step_destroy n w : step w (destroy n w)
  | step_initState devMode P self hookPath instance w handle w' :
      initState devMode P self hookPath instance w = Returned (handle, w') ->
      step w w'
  | step_public proto w : step w (snd (publicFactory proto w))
  | step_childrenOfType tok a w : step w (snd (childrenOfType tok a w)).

Inductive reachable : World -> Prop :=
  | reachable_empty : reachable emptyWorld
  | reachable_step w w' : reachable w -> step w w' -> reachable w'.

(** The state object a node starts with. *)
Definition initialState (P : Proto) (chain : list ProtoAncestorEntry)
    (contributionPath : list (list Cfg)) (w : World) : ProtoStateObj :=
  {| value := None; has_set := true; has_update := true;
     protoName := name P; config := injectConfig P contributionPath;
     ancestry :=
       {| ancestors := rev chain; currentToken := publicToken P;
          allChildrenSignal := next w; sameTypeChildren := S (next w);
          cachedParent := None; childrenByTypeCache := ∅ |};
     allChildren := [] |}.

(** What merging with the fields [fb] makes of the value under key [k]. *)
Definition mergeField (fb : list (string * Cfg)) (k : string) (va : Cfg)
    : Cfg :=
  match assoc k fb with
  | Some vb => merge va vb
  | None => va
  end.

(** What the loop of [initState] makes of one member. *)
Definition wrapField (f : Field) : Field :=
  match f with
  | RawInput v => Controlled (controlledInput v)
  | other => other
  end.

(** The cache of [childrenOfType] holds, under each token, a computed signal
    that filters the view's own descendant set by that token. *)
Definition cacheOk (a : ProtoAncestry) (w : World) : Prop :=
  forall tok h, childrenByTypeCache a !! tok = Some h ->
    computeds w !! h
    = Some {| c_source := allChildrenSignal a; c_token := tok |}.

(** Every view kept in the heap has such a cache. *)
Definition cachesOk (w : World) : Prop :=
  forall r o, heap w !! r = Some o -> cacheOk (ancestry o) w.

(** What calls of [childrenOfType] leave as it was: every state object stays,
    with its descendant set, the signal its view reads, and the handles its
    view has cached. *)
Definition cacheKept (w w' : World) : Prop :=
  forall r o, heap w !! r = Some o ->
    exists o', heap w' !! r = Some o'
      /\ allChildren o' = allChildren o
      /\ allChildrenSignal (ancestry o') = allChildrenSignal (ancestry o)
      /\ forall tok h, childrenByTypeCache (ancestry o) !! tok = Some h ->
                       childrenByTypeCache (ancestry o') !! tok = Some h.

(** How a state object may differ after a step taken in the world [w]: its
    name, configuration and ancestry view are the same, a slot that held a
    value holds the same value, and what its descendant set has gained
    points to objects created in the step. *)
Definition evolves (w : World) (o o' : ProtoStateObj) : Prop :=
  protoName o' = protoName o /\ config o' = config o
  /\ ancestry o' = ancestry o
  /\ (forall v, value o = Some v -> value o' = Some v)
  /\ (forall e, In e (allChildren o') ->
        In e (allChildren o) \/ next w <= state e).

(** The cell [r] of the heap before and after a step: an object stays and
    evolves, and a new one has a fresh reference, an empty slot and an empty
    descendant set. *)
Definition cellStep (w : World) (r : Ref)
    (before after : option ProtoStateObj) : Prop :=
  match before, after with
  | Some o, Some o' => evolves w o o'
  | None, Some o' => value o' = None /\ allChildren o' = [] /\ next w <= r
  | None, None => True
  | Some _, None => False
  end.

(** * Properties *)

(** ** The ancestry view *)

Section Ancestry.

Implicit Types (chain : list ProtoAncestorEntry) (tok : InjectionToken).

Lemma parent_result a :
  parentCacheOk a ->
  fst (parent a) = List.find (hasToken (currentToken a)) (ancestors a).
Proof.
  unfold parent, parentCacheOk. intros Hok.
  destruct (cachedParent a) as [p|] eqn:E; simpl; auto.
Qed.

Lemma parent_keeps a :
  parentCacheOk a ->
  parentCacheOk (snd (parent a))
  /\ ancestors (snd (parent a)) = ancestors a
  /\ currentToken (snd (parent a)) = currentToken a.
Proof.
  unfold parent, parentCacheOk. intros Hok.
  destruct (cachedParent a) as [p|] eqn:E; simpl.
  - repeat split. intros q Hq. apply Hok. congruence.
  - repeat split. intros q Hq. congruence.
Qed.

Lemma parentAfter_result n : forall a,
  parentCacheOk a ->
  fst (parentAfter n a) = List.find (hasToken (currentToken a)) (ancestors a).
Proof.
  induction n as [|n IH]; intros a Hok; simpl.
  - now apply parent_result.
  - destruct (parent_keeps a Hok) as (Hok' & Ha & Ht).
    rewrite IH by assumption. now rewrite Ha, Ht.
Qed.

Lemma createProtoAncestry_fields chain tok sig w :
  let a := fst (createProtoAncestry chain tok sig w) in
  ancestors a = rev chain /\ currentToken a = tok
  /\ allChildrenSignal a = sig /\ sameTypeChildren a = next w
  /\ cachedParent a = None /\ childrenByTypeCache a = ∅.
Proof. unfold createProtoAncestry; simpl. repeat split. Qed.

(** [find] returns the first match: everything before it fails the test. *)
Lemma find_first {A} (f : A -> bool) (l : list A) :
  match List.find f l with
  | Some e => exists nearer farther,
      l = nearer ++ e :: farther /\ f e = true
      /\ Forall (fun x => f x = false) nearer
  | None => Forall (fun x => f x = false) l
  end.
Proof.
  induction l as [|x l IH]; simpl.
  - constructor.
  - destruct (f x) eqn:Ex.
    + exists [], l. repeat split; auto.
    + destruct (List.find f l) as [e|].
      * destruct IH as (n & fa & -> & He & Hn).
        exists (x :: n), fa. repeat split; auto.
      * constructor; auto.
Qed.

Lemma find_skip {A} (f : A -> bool) (l1 l2 : list A) x :
  f x = false -> List.find f (l1 ++ x :: l2) = List.find f (l1 ++ l2).
Proof.
  intros Hx. induction l1 as [|y l1 IH]; simpl.
  - now rewrite Hx.
  - destruct (f y); auto.
Qed.

(** C5.  The [parent] of the ancestry view built for a node of kind [tok]
    over the chain [farther ++ nearer] (as provided: root first) is, at the
    first read and at every later one, the first entry of kind [tok] in the
    nearest-first order of the chain, [null] when there is none; and the
    chain with an entry [x] of another kind inserted anywhere gives the same
    [parent]. *)
Theorem parent_nearest_same_kind farther nearer x tok sig w n m :
  token x <> tok ->
  let a := fst (createProtoAncestry (farther ++ nearer) tok sig w) in
  let a' := fst (createProtoAncestry (farther ++ x :: nearer) tok sig w) in
  fst (parentAfter n a) = List.find (hasToken tok) (rev (farther ++ nearer))
  /\ match fst (parentAfter n a) with
     | Some e => exists before after,
         rev (farther ++ nearer) = before ++ e :: after
         /\ token e = tok
         /\ Forall (fun y => token y <> tok) before
     | None => Forall (fun y => token y <> tok) (farther ++ nearer)
     end
  /\ fst (parentAfter m a') = fst (parentAfter n a).
Proof.
  intros Hx a a'.
  assert (Ha : fst (parentAfter n a)
               = List.find (hasToken tok) (rev (farther ++ nearer))).
  { rewrite parentAfter_result; [reflexivity|]. intros p Hp. discriminate. }
  split; [exact Ha|]. split.
  - rewrite Ha.
    pose proof (find_first (hasToken tok) (rev (farther ++ nearer))) as H.
    destruct (List.find _ _) as [e|].
    + destruct H as (b & af & E & He & Hb). exists b, af.
      repeat split; auto.
      * now apply Nat.eqb_eq in He.
      * eapply Forall_impl; [exact Hb|]. intros y Hy. now apply Nat.eqb_neq.
    + apply Forall_forall. intros y Hy.
      rewrite Forall_forall in H. apply Nat.eqb_neq, H.
      apply list_elem_of_In. rewrite <- in_rev. now apply list_elem_of_In.
  - rewrite Ha, parentAfter_result by (intros p Hp; discriminate).
    simpl. rewrite !rev_app_distr. simpl. rewrite <- app_assoc. simpl.
    apply find_skip. now apply Nat.eqb_neq.
Qed.

Lemma childrenOfType_hit tok a w h :
  childrenByTypeCache a !! tok = Some h ->
  childrenOfType tok a w = (h, a, w).
Proof. unfold childrenOfType. now intros ->. Qed.

Lemma childrenOfType_caches tok a w :
  let '(h, a', _) := childrenOfType tok a w in
  childrenByTypeCache a' !! tok = Some h.
Proof.
  unfold childrenOfType.
  destruct (childrenByTypeCache a !! tok) as [h|] eqn:E; simpl; auto.
  apply lookup_insert_eq.
Qed.

Lemma childrenOfType_keeps tok tok' a w h :
  childrenByTypeCache a !! tok = Some h ->
  let '(_, a', _) := childrenOfType tok' a w in
  childrenByTypeCache a' !! tok = Some h.
Proof.
  intros Hh. unfold childrenOfType.
  destruct (childrenByTypeCache a !! tok') as [h'|] eqn:E; simpl; auto.
  destruct (decide (tok' = tok)) as [->|Hne]; [congruence|].
  now rewrite lookup_insert_ne.
Qed.

Lemma childrenOfTypeAll_keeps toks : forall tok a w h,
  childrenByTypeCache a !! tok = Some h ->
  childrenByTypeCache (fst (childrenOfTypeAll toks (a, w))) !! tok = Some h.
Proof.
  induction toks as [|t toks IH]; intros tok a w h Hh; simpl; auto.
  pose proof (childrenOfType_keeps tok t a w h Hh) as Hk.
  destruct (childrenOfType t a w) as [[h' a'] w']. now apply IH.
Qed.

(** On a view passed from call to call, two calls of [childrenOfType] with
    the same token return the same signal object, whatever calls are made on
    the view in between. *)
Lemma childrenOfType_view_same tok (a : ProtoAncestry) (w : World)
    (between : list InjectionToken) :
  let '(h1, a1, w1) := childrenOfType tok a w in
  let '(a2, w2) := childrenOfTypeAll between (a1, w1) in
  let '(h2, _, _) := childrenOfType tok a2 w2 in
  h1 = h2.
Proof.
  pose proof (childrenOfType_caches tok a w) as Hc.
  destruct (childrenOfType tok a w) as [[h1 a1] w1].
  pose proof (childrenOfTypeAll_keeps between tok a1 w1 h1 Hc) as Hk.
  destruct (childrenOfTypeAll between (a1, w1)) as [a2 w2]. simpl in Hk.
  now rewrite (childrenOfType_hit tok a2 w2 h1 Hk).
Qed.

End Ancestry.

(** ** Registration with the ancestors *)

Section Registration.

Implicit Types (w : World) (s : Ref) (chain : list ProtoAncestorEntry).

Lemma set_allChildren_twice l1 l2 o :
  set_allChildren l2 (set_allChildren l1 o) = set_allChildren l2 o.
Proof. reflexivity. Qed.

Lemma set_allChildren_same o : set_allChildren (allChildren o) o = o.
Proof. now destruct o. Qed.

(** Running one update per chain entry changes nothing but the children
    signals, and changes each as often as its owner occurs in the chain. *)
Lemma updates_heap f chain : forall w s,
  heap (fold_left (fun w a => updateChildren f w (state a)) chain w) !! s
  = (fun o => set_allChildren
                (Nat.iter (occurrences s chain) f (allChildren o)) o)
      <$> heap w !! s.
Proof.
  unfold occurrences.
  induction chain as [|a chain IH]; intros w s; simpl.
  - destruct (heap w !! s) as [o|]; simpl; [|reflexivity].
    now rewrite set_allChildren_same.
  - rewrite IH. unfold updateChildren, with_heap; simpl.
    rewrite lookup_alter.
    destruct (decide (state a = s)) as [->|Hne];
      destruct (Nat.eq_dec _ _) as [He|He]; try congruence.
    destruct (heap w !! s) as [o|]; simpl; [|reflexivity].
    rewrite set_allChildren_twice. f_equal. f_equal.
    symmetry. apply Nat.iter_succ_r.
Qed.

Lemma updates_rest f chain : forall w,
  let w' := fold_left (fun w a => updateChildren f w (state a)) chain w in
  computeds w' = computeds w /\ next w' = next w
  /\ console w' = console w /\ hookCalls w' = hookCalls w.
Proof.
  induction chain as [|a chain IH]; intros w; simpl; [tauto|].
  destruct (IH (updateChildren f w (state a))) as (H1 & H2 & H3 & H4).
  now rewrite H1, H2, H3, H4.
Qed.

Lemma readAllChildren_updates f chain w s :
  readAllChildren s
    (fold_left (fun w a => updateChildren f w (state a)) chain w)
  = match heap w !! s with
    | Some o => Nat.iter (occurrences s chain) f (allChildren o)
    | None => []
    end.
Proof.
  unfold readAllChildren. rewrite updates_heap.
  now destruct (heap w !! s).
Qed.

Lemma occurrences_0 s chain :
  ~ In s (map state chain) <-> occurrences s chain = 0.
Proof. apply count_occ_not_In. Qed.

Lemma occurrences_NoDup s chain :
  List.NoDup (map state chain) -> In s (map state chain) ->
  occurrences s chain = 1.
Proof.
  intros Hnd Hin. unfold occurrences.
  pose proof (proj1 (List.NoDup_count_occ Nat.eq_dec _) Hnd s) as Hle.
  pose proof (proj1 (count_occ_In Nat.eq_dec _ s) Hin). lia.
Qed.

Lemma iter_filter {A} (g : A -> bool) n (l : list A) :
  Nat.iter n (List.filter g) l = if Nat.eqb n 0 then l else List.filter g l.
Proof.
  induction n as [|n IH]; simpl; [reflexivity|].
  rewrite IH. destruct (Nat.eqb n 0); [reflexivity|].
  clear IH. induction l as [|x l IHl]; simpl; [reflexivity|].
  destruct (g x) eqn:E; simpl; [rewrite E|]; now rewrite IHl.
Qed.

(** *** What [onDestroy] does to the descendant sets *)

Lemma readAllChildren_onDestroy e chain w s :
  readAllChildren s (onDestroy e chain w)
  = if Nat.eqb (occurrences s chain) 0 then readAllChildren s w
    else List.filter (fun p => negb (same_object p e)) (readAllChildren s w).
Proof.
  unfold onDestroy. rewrite readAllChildren_updates. unfold readAllChildren.
  destruct (heap w !! s) as [o|].
  - apply iter_filter.
  - now destruct (Nat.eqb _ 0).
Qed.

Lemma readComputed_onDestroy e chain w h :
  readComputed h (onDestroy e chain w)
  = match computeds w !! h with
    | Some c =>
        if Nat.eqb (occurrences (c_source c) chain) 0 then readComputed h w
        else List.filter (fun p => negb (same_object p e)) (readComputed h w)
    | None => []
    end.
Proof.
  unfold readComputed.
  destruct (updates_rest
              (List.filter (fun p => negb (same_object p e))) chain w)
    as (Hc & _).
  unfold onDestroy at 1. rewrite Hc.
  destruct (computeds w !! h) as [c|]; [|reflexivity].
  rewrite readAllChildren_onDestroy.
  destruct (Nat.eqb _ 0); [reflexivity|].
  generalize (readAllChildren (c_source c) w) as l.
  induction l as [|x l IHl]; simpl; [reflexivity|].
  destruct (negb (same_object x e)) eqn:E1, (hasToken (c_token c) x) eqn:E2;
    simpl; rewrite ?E1, ?E2; now rewrite IHl.
Qed.

(** Filtering out one object from a list whose objects are all distinct
    removes exactly that one element. *)
Lemma filter_out_one (e : ProtoAncestorEntry) l :
  List.NoDup (map entry_ref l) -> In e l ->
  exists l1 l2, l = l1 ++ e :: l2
    /\ List.filter (fun p => negb (same_object p e)) l = l1 ++ l2.
Proof.
  intros Hnd Hin. apply in_split in Hin as (l1 & l2 & ->).
  exists l1, l2. split; [reflexivity|].
  rewrite map_app in Hnd. simpl in Hnd.
  apply List.NoDup_remove in Hnd as [Hnd Hnot].
  assert (Hkeep : forall l', ~ In (entry_ref e) (map entry_ref l') ->
            List.filter (fun p => negb (same_object p e)) l' = l').
  { intros l'. induction l' as [|x l' IH]; simpl; intros Hx; [reflexivity|].
    unfold same_object at 1.
    destruct (Nat.eqb_spec (entry_ref x) (entry_ref e)) as [E|E]; simpl.
    - exfalso. apply Hx. now left.
    - rewrite IH; [reflexivity|]. intros H. apply Hx. now right. }
  rewrite List.filter_app. simpl.
  unfold same_object at 2. rewrite Nat.eqb_refl. simpl.
  rewrite !Hkeep; [reflexivity| |];
    intros H; apply Hnot; rewrite in_app_iff; auto.
Qed.

End Registration.

(** ** Worlds built by the factories *)

Section Mount.

Implicit Types (w : World) (s : Ref) (chain : list ProtoAncestorEntry).

Lemma wf_empty : wf emptyWorld.
Proof. split; simpl; intros *; rewrite lookup_empty; discriminate. Qed.

Lemma chain_ok_nil w : chain_ok w [].
Proof. split; simpl; constructor. Qed.

Lemma chain_ok_fresh w chain :
  chain_ok w chain -> occurrences (next w) chain = 0.
Proof.
  intros [_ Hb]. apply occurrences_0. intros Hin.
  apply in_map_iff in Hin as (e & He & Hin).
  rewrite Forall_forall in Hb. apply list_elem_of_In, Hb in Hin. lia.
Qed.

Lemma onChain_In s chain :
  onChain s chain = true <-> In s (map state chain).
Proof.
  unfold onChain. rewrite existsb_exists. split.
  - intros (x & Hx & E). apply Nat.eqb_eq in E. now subst.
  - intros H. exists s. split; [exact H|apply Nat.eqb_refl].
Qed.

Lemma chain_ok_occurrences w chain s :
  chain_ok w chain ->
  occurrences s chain = if onChain s chain then 1 else 0.
Proof.
  intros [Hnd _]. destruct (onChain s chain) eqn:E.
  - now apply occurrences_NoDup, onChain_In.
  - apply occurrences_0. rewrite <- onChain_In. congruence.
Qed.

(** What [mount] returns and what it leaves behind. *)
Lemma mount_effect P enclosing cpath w :
  let chain := default [] enclosing in
  let selfEntry :=
    {| entry_ref := S (S (next w)); token := publicToken P;
       state := next w |} in
  fst (mount P enclosing cpath w)
  = {| node_state := next w; node_selfEntry := selfEntry;
       node_chain := chain;
       node_provided :=
         chain ++ [{| entry_ref := S (S (S (next w)));
                      token := publicToken P; state := next w |}] |}
  /\ next (snd (mount P enclosing cpath w)) = S (S (S (S (next w))))
  /\ computeds (snd (mount P enclosing cpath w))
     = <[S (next w) := {| c_source := next w; c_token := publicToken P |}]>
         (computeds w)
  /\ console (snd (mount P enclosing cpath w)) = console w
  /\ hookCalls (snd (mount P enclosing cpath w)) = hookCalls w
  /\ forall r,
       heap (snd (mount P enclosing cpath w)) !! r
       = (fun o => set_allChildren
                     (Nat.iter (occurrences r chain)
                               (fun c => c ++ [selfEntry]) (allChildren o)) o)
           <$> (<[next w := initialState P chain cpath w]> (heap w) !! r).
Proof.
  intros chain selfEntry.
  unfold mount, internalFactory, chainFactory, createProtoAncestry,
    computed, alloc. simpl. fold chain.
  match goal with
  | |- context [fold_left ?f chain ?w0] =>
      pose proof (updates_rest (fun c => c ++ [selfEntry]) chain w0) as Hr;
      pose proof (updates_heap (fun c => c ++ [selfEntry]) chain w0) as Hh
  end.
  simpl in Hr. destruct Hr as (Hc & Hn & Hco & Hhk).
  subst selfEntry. rewrite Hn, Hc, Hco, Hhk. repeat split. intros r. apply Hh.
Qed.

Lemma iter_snoc {A} (e : A) n (l : list A) :
  n <= 1 ->
  Nat.iter n (fun c => c ++ [e]) l = if Nat.eqb n 0 then l else l ++ [e].
Proof. destruct n as [|[|n]]; simpl; intros; [reflexivity..|lia]. Qed.

(** An object that was there before [mount] keeps everything but its
    descendant set, which gains the new entry when the object is on the
    chain. *)
Lemma mount_old P chain cpath w r o :
  wf w -> chain_ok w chain -> heap w !! r = Some o ->
  heap (snd (mount P (Some chain) cpath w)) !! r
  = Some (set_allChildren
            (if onChain r chain
             then allChildren o
                  ++ [node_selfEntry (fst (mount P (Some chain) cpath w))]
             else allChildren o) o).
Proof.
  intros Hwf Hok Hr.
  destruct (mount_effect P (Some chain) cpath w) as (Hn & _ & _ & _ & _ & Hh).
  change (default [] (Some chain)) with chain in Hn, Hh.
  rewrite Hh, Hn. simpl.
  assert (r <> next w) by (apply (wf_heap w Hwf) in Hr; lia).
  rewrite lookup_insert_ne, Hr by congruence. simpl.
  rewrite (chain_ok_occurrences w chain r Hok).
  now destruct (onChain r chain).
Qed.

Lemma mount_new P chain cpath w :
  chain_ok w chain ->
  heap (snd (mount P (Some chain) cpath w)) !! next w
  = Some (initialState P chain cpath w).
Proof.
  intros Hok.
  destruct (mount_effect P (Some chain) cpath w) as (_ & _ & _ & _ & _ & Hh).
  change (default [] (Some chain)) with chain in Hh.
  rewrite Hh, lookup_insert_eq. simpl.
  now rewrite (chain_ok_fresh w chain Hok).
Qed.

Lemma mount_heap_inv P chain cpath w r o' :
  wf w -> chain_ok w chain ->
  heap (snd (mount P (Some chain) cpath w)) !! r = Some o' ->
  (r = next w /\ o' = initialState P chain cpath w)
  \/ (r < next w /\ exists o, heap w !! r = Some o
      /\ ancestry o' = ancestry o
      /\ (allChildren o' = allChildren o
          \/ allChildren o'
             = allChildren o
               ++ [node_selfEntry (fst (mount P (Some chain) cpath w))])).
Proof.
  intros Hwf Hok Hl.
  destruct (decide (r = next w)) as [->|Hne].
  - left. rewrite mount_new in Hl by assumption. split; congruence.
  - right.
    destruct (heap w !! r) as [o|] eqn:Hr.
    + rewrite (mount_old P chain cpath w r o Hwf Hok Hr) in Hl.
      injection Hl as <-. split; [now apply (wf_heap w Hwf) in Hr|].
      exists o. repeat split. simpl. destruct (onChain r chain); auto.
    + destruct (mount_effect P (Some chain) cpath w)
        as (_ & _ & _ & _ & _ & Hh).
      rewrite Hh, lookup_insert_ne, Hr in Hl by congruence.
      discriminate.
Qed.

(** [mount] keeps the world well formed, and the chain it provides is a
    chain again. *)
Lemma wf_mount P chain cpath w :
  wf w -> chain_ok w chain ->
  wf (snd (mount P (Some chain) cpath w))
  /\ chain_ok (snd (mount P (Some chain) cpath w))
              (node_provided (fst (mount P (Some chain) cpath w))).
Proof.
  intros Hwf Hok.
  destruct (mount_effect P (Some chain) cpath w)
    as (Hn & Hnx & Hc & _ & _ & _).
  change (default [] (Some chain)) with chain in Hn. split.
  - split.
    + intros r o' Hl. rewrite Hnx.
      destruct (mount_heap_inv P chain cpath w r o' Hwf Hok Hl)
        as [[-> _]|[Hlt _]]; lia.
    + intros h c. rewrite Hc, Hnx, lookup_insert.
      case_decide; [intros _; lia|].
      intros Hl. apply (wf_computeds w Hwf) in Hl. lia.
    + intros r o' Hl.
      destruct (mount_heap_inv P chain cpath w r o' Hwf Hok Hl)
        as [[-> ->]|(Hlt & o & Hr & _ & [->| ->])].
      * constructor.
      * now apply (wf_distinct w Hwf r).
      * rewrite Hn. simpl. rewrite map_app. simpl.
        apply List.NoDup_app; [now apply (wf_distinct w Hwf r)| |].
        { constructor; [intros []|constructor]. }
        intros x Hx [<-|[]].
        apply in_map_iff in Hx as (e & He & Hin).
        pose proof (wf_bound w Hwf r o Hr) as Hb.
        rewrite Forall_forall in Hb. apply list_elem_of_In, Hb in Hin. lia.
    + intros r o' Hl. rewrite Hnx.
      destruct (mount_heap_inv P chain cpath w r o' Hwf Hok Hl)
        as [[-> ->]|(Hlt & o & Hr & _ & [->| ->])].
      * constructor.
      * eapply Forall_impl; [apply (wf_bound w Hwf r o Hr)|].
        simpl. intros; lia.
      * apply Forall_app. split.
        -- eapply Forall_impl; [apply (wf_bound w Hwf r o Hr)|].
           simpl. intros; lia.
        -- rewrite Hn. simpl. constructor; [simpl; lia|constructor].
    + intros r o' Hl. rewrite Hc.
      destruct (mount_heap_inv P chain cpath w r o' Hwf Hok Hl)
        as [[-> ->]|(Hlt & o & Hr & -> & _)].
      * apply lookup_insert_eq.
      * pose proof (wf_view w Hwf r o Hr) as Hv.
        rewrite lookup_insert_ne; [exact Hv|].
        apply (wf_computeds w Hwf) in Hv. lia.
  - unfold chain_ok. rewrite Hn, Hnx. simpl. destruct Hok as [Hnd Hb]. split.
    + rewrite map_app. simpl. apply List.NoDup_app; [exact Hnd| |].
      { constructor; [intros []|constructor]. }
      intros x Hx [<-|[]].
      apply in_map_iff in Hx as (e & He & Hin).
      rewrite Forall_forall in Hb. apply list_elem_of_In, Hb in Hin. lia.
    + apply Forall_app. split.
      * eapply Forall_impl; [exact Hb|]. simpl. intros; lia.
      * constructor; [simpl; lia|constructor].
Qed.

End Mount.

(** ** Descendant sets: creation, destruction, the children view *)

Section Descendants.

Implicit Types (w : World) (s : Ref) (chain : list ProtoAncestorEntry).

(** Objects allocated before [k] are not the object allocated at [k]. *)
Lemma filter_fresh (e : ProtoAncestorEntry) k l :
  Forall (fun p => entry_ref p < k) l -> k <= entry_ref e ->
  List.filter (fun p => negb (same_object p e)) l = l.
Proof.
  intros Hb Hk. induction Hb as [|x l Hx Hb IH]; simpl; [reflexivity|].
  unfold same_object at 1.
  destruct (Nat.eqb_spec (entry_ref x) (entry_ref e)); [lia|].
  simpl. now rewrite IH.
Qed.

Lemma NoDup_map_filter {A B} (f : A -> B) (g : A -> bool) (l : list A) :
  List.NoDup (map f l) -> List.NoDup (map f (List.filter g l)).
Proof.
  induction l as [|x l IH]; simpl; intros Hnd; [constructor|].
  inversion Hnd as [|? ? Hnot Hnd']; subst.
  destruct (g x); simpl; [|now apply IH].
  constructor; [|now apply IH].
  intros Hin. apply Hnot. apply in_map_iff in Hin as (y & Hy & Hin).
  apply in_map_iff. exists y. split; [exact Hy|].
  now apply List.filter_In in Hin as [Hin _].
Qed.

Lemma Forall_filter_bool {A} (Q : A -> Prop) (g : A -> bool) (l : list A) :
  Forall Q l -> Forall Q (List.filter g l).
Proof.
  induction 1 as [|x l Hx Hl IH]; simpl; [constructor|].
  destruct (g x); [constructor|]; auto.
Qed.

(** Destruction keeps the world well formed. *)
Lemma wf_onDestroy e chain w : wf w -> wf (onDestroy e chain w).
Proof.
  intros Hwf. unfold onDestroy.
  set (g := List.filter (fun p => negb (same_object p e))).
  destruct (updates_rest g chain w) as (Hc & Hn & _ & _).
  pose proof (updates_heap g chain w) as Hh.
  assert (Hinv : forall r o',
    heap (fold_left (fun w a => updateChildren g w (state a)) chain w) !! r
      = Some o' ->
    exists o, heap w !! r = Some o /\ ancestry o' = ancestry o
      /\ (allChildren o' = allChildren o \/ allChildren o' = g (allChildren o))).
  { intros r o'. rewrite Hh.
    destruct (heap w !! r) as [o|]; simpl; [|discriminate].
    intros [= <-]. exists o. repeat split. simpl. unfold g.
    rewrite iter_filter. destruct (Nat.eqb _ 0); auto. }
  split.
  - intros r o' Hl. rewrite Hn. destruct (Hinv r o' Hl) as (o & Hr & _).
    now apply (wf_heap w Hwf) in Hr.
  - intros h c. rewrite Hc, Hn. apply (wf_computeds w Hwf).
  - intros r o' Hl. destruct (Hinv r o' Hl) as (o & Hr & _ & [->| ->]).
    + now apply (wf_distinct w Hwf r).
    + apply NoDup_map_filter. now apply (wf_distinct w Hwf r).
  - intros r o' Hl. rewrite Hn.
    destruct (Hinv r o' Hl) as (o & Hr & _ & [->| ->]).
    + now apply (wf_bound w Hwf r).
    + apply Forall_filter_bool. now apply (wf_bound w Hwf r).
  - intros r o' Hl. rewrite Hc.
    destruct (Hinv r o' Hl) as (o & Hr & -> & _).
    now apply (wf_view w Hwf r).
Qed.

Lemma children_view w s o :
  wf w -> heap w !! s = Some o ->
  children (ancestry o) w
  = List.filter (hasToken (currentToken (ancestry o))) (readAllChildren s w).
Proof.
  intros Hwf Hs. unfold children, readComputed.
  now rewrite (wf_view w Hwf s o Hs).
Qed.

(** C6, as amended.  For a state object [s] of a well-formed world, with
    ancestry view [ancestry o]: reading [children] gives the entries of its
    descendant set that have its own token.  A node created under a chain
    that passes through [s], at whatever position of the chain, is appended
    to the descendant set of [s], and is in [children] at the next read
    exactly when it has the token of [s]; the chain that node provides passes
    through [s] again, so the same holds for all that is created below it.
    Destroying any node whose chain passes through [s] takes its entry out
    of [children] at the next read.  A node created under a chain that does
    not pass through [s] leaves [children] as it was. *)
Theorem children_same_kind_descendants P chain cpath w s o :
  wf w -> chain_ok w chain -> heap w !! s = Some o ->
  In s (map state chain) ->
  let view := ancestry o in
  let n := fst (mount P (Some chain) cpath w) in
  let w1 := snd (mount P (Some chain) cpath w) in
  children view w
    = List.filter (hasToken (currentToken view)) (readAllChildren s w)
  /\ readAllChildren s w1 = readAllChildren s w ++ [node_selfEntry n]
  /\ children view w1
     = children view w
       ++ (if Nat.eqb (publicToken P) (currentToken view)
           then [node_selfEntry n] else [])
  /\ (In s (map state (node_provided n))
      /\ chain_ok w1 (node_provided n) /\ wf w1)
  /\ children view (destroy n w1) = children view w
  /\ (forall d : Node, In s (map state (node_chain d)) ->
        children view (destroy d w)
        = List.filter (fun p => negb (same_object p (node_selfEntry d)))
                      (children view w))
  /\ (forall Q chain' cpath',
        chain_ok w chain' -> ~ In s (map state chain') ->
        children view (snd (mount Q (Some chain') cpath' w))
        = children view w).
Proof.
  intros Hwf Hok Hs Hin view n w1.
  destruct (mount_effect P (Some chain) cpath w)
    as (Hn & Hnx & Hc & _ & _ & _).
  change (default [] (Some chain)) with chain in Hn.
  destruct (wf_mount P chain cpath w Hwf Hok) as [Hwf1 Hok1].
  fold n w1 in Hn, Hnx, Hc, Hwf1, Hok1.
  pose proof (proj2 (onChain_In s chain) Hin) as Hon.
  assert (Hs1 : heap w1 !! s
                = Some (set_allChildren (allChildren o ++ [node_selfEntry n]) o)).
  { unfold w1, n. rewrite (mount_old P chain cpath w s o Hwf Hok Hs).
    now rewrite Hon. }
  assert (Hall : readAllChildren s w1
                 = readAllChildren s w ++ [node_selfEntry n]).
  { unfold readAllChildren. now rewrite Hs1, Hs. }
  assert (Hview : children view w
            = List.filter (hasToken (currentToken view)) (readAllChildren s w))
    by now apply children_view.
  assert (Hview1 : children view w1
            = children view w
              ++ (if Nat.eqb (publicToken P) (currentToken view)
                  then [node_selfEntry n] else [])).
  { change view with (ancestry (set_allChildren
                                  (allChildren o ++ [node_selfEntry n]) o)) at 1.
    rewrite (children_view w1 s _ Hwf1 Hs1). simpl.
    rewrite Hall, List.filter_app, Hview. f_equal. }
  assert (Hdestroy : forall w' (d : Node), wf w' ->
            computeds w' !! sameTypeChildren view
            = Some {| c_source := s; c_token := currentToken view |} ->
            In s (map state (node_chain d)) ->
            children view (destroy d w')
            = List.filter (fun p => negb (same_object p (node_selfEntry d)))
                          (children view w')).
  { intros w' d Hwf' Hv Hd. unfold children, destroy.
    rewrite readComputed_onDestroy, Hv. simpl.
    apply count_occ_In with (eq_dec := Nat.eq_dec) in Hd.
    fold (occurrences s (node_chain d)) in Hd.
    destruct (Nat.eqb_spec (occurrences s (node_chain d)) 0); [lia|].
    reflexivity. }
  split; [exact Hview|]. split; [exact Hall|]. split; [exact Hview1|].
  split; [split; [|split; assumption]|split; [|split]].
  - rewrite Hn. simpl. rewrite map_app, in_app_iff. now left.
  - rewrite (Hdestroy w1 n Hwf1).
    + rewrite Hview1, List.filter_app.
      assert (Hold : List.filter
                (fun p => negb (same_object p (node_selfEntry n)))
                (children view w) = children view w).
      { apply filter_fresh with (k := next w).
        - rewrite Hview. apply Forall_filter_bool.
          unfold readAllChildren. rewrite Hs.
          apply (wf_bound w Hwf s o Hs).
        - rewrite Hn. simpl. lia. }
      rewrite Hold. destruct (Nat.eqb _ _); simpl.
      * unfold same_object. rewrite Nat.eqb_refl. simpl.
        apply app_nil_r.
      * apply app_nil_r.
    + change view with (ancestry (set_allChildren
                                    (allChildren o ++ [node_selfEntry n]) o)).
      apply (wf_view w1 Hwf1 s _ Hs1).
    + rewrite Hn. simpl. exact Hin.
  - intros d Hd. apply Hdestroy; auto. apply (wf_view w Hwf s o Hs).
  - intros Q chain' cpath' Hok' Hoff.
    destruct (wf_mount Q chain' cpath' w Hwf Hok') as [Hwf' _].
    assert (Hon' : onChain s chain' = false).
    { destruct (onChain s chain') eqn:E; [|reflexivity].
      now apply onChain_In in E. }
    pose proof (mount_old Q chain' cpath' w s o Hwf Hok' Hs) as Hs'.
    rewrite Hon' in Hs'.
    change view with (ancestry (set_allChildren (allChildren o) o)) at 1.
    rewrite (children_view _ s _ Hwf' Hs'), Hview.
    unfold readAllChildren. rewrite Hs', Hs. reflexivity.
Qed.

(** Below an element with two protos: the nested [ParentDir] has the
    [ChildDir] of the element on its chain and nothing else, it has no
    parent, it is among the descendants of the [ChildDir] only, and the
    [ParentDir] of the element has no children. *)
Example test_shared_element :
  let '(here, inner, w) := sharedElement in
  map node_state here = [0; 4]
  /\ map state (node_chain inner) = [4]
  /\ parentState inner w = None
  /\ map (fun n => allChildrenStates n w) here = [[]; [node_state inner]]
  /\ map (fun n => childrenStates n w) here = [[]; []].
Proof. vm_compute. repeat split. Qed.

(** C6 as stated fails below an element that carries two protos.  A
    [ParentDir] and a [ChildDir] are on one element, and a second [ParentDir]
    is on an element nested in it: the chain that element provides is the one
    of its last proto, the first [ParentDir] is not on it, and the nested
    node of its own kind is not among its [children]. *)
Lemma children_miss_below_shared_element :
  ~ (forall (here : list Proto) (Q : Proto),
       let '(nodes, w1) := mountElement here None [] emptyWorld in
       let '(inner, w2) := mount Q (providedChain None nodes) [] w1 in
       forall n, In n nodes -> token (node_selfEntry n) = publicToken Q ->
         In (node_selfEntry inner) (childrenEntries n w2)).
Proof.
  intros H. specialize (H [ParentDir; ChildDir] ParentDir).
  destruct (mountElement [ParentDir; ChildDir] None [] emptyWorld)
    as [nodes w1] eqn:E1.
  destruct (mount ParentDir (providedChain None nodes) [] w1)
    as [inner w2] eqn:E2.
  vm_compute in E1. injection E1 as <- <-.
  vm_compute in E2. injection E2 as <- <-.
  specialize (H _ (or_introl eq_refl) eq_refl).
  vm_compute in H. exact H.
Qed.

(** C4.  When a node is destroyed, the descendant set of every state object
    on its chain loses the entries that are the node's own entry object and
    no others: an entry that is another object stays, whatever its fields.
    In a well-formed world the set holds that object at most once, so
    exactly one element goes, the rest keeping its order; the descendant
    sets of the objects off the chain are as before. *)
Theorem destroy_removes_own_entry (n : Node) w s :
  wf w -> In s (map state (node_chain n)) ->
  let self := node_selfEntry n in
  let before := readAllChildren s w in
  let after := readAllChildren s (destroy n w) in
  after = List.filter (fun p => negb (same_object p self)) before
  /\ (forall p, In p before -> same_object p self = false -> In p after)
  /\ ~ In self after
  /\ (In self before ->
      exists l1 l2, before = l1 ++ self :: l2 /\ after = l1 ++ l2)
  /\ (forall s', ~ In s' (map state (node_chain n)) ->
      readAllChildren s' (destroy n w) = readAllChildren s' w).
Proof.
  intros Hwf Hin self before after.
  assert (Hafter : after
            = List.filter (fun p => negb (same_object p self)) before).
  { unfold after, destroy. rewrite readAllChildren_onDestroy.
    apply count_occ_In with (eq_dec := Nat.eq_dec) in Hin.
    fold (occurrences s (node_chain n)) in Hin.
    destruct (Nat.eqb_spec (occurrences s (node_chain n)) 0); [lia|].
    reflexivity. }
  split; [exact Hafter|]. split; [|split; [|split]].
  - intros p Hp Hne. rewrite Hafter. apply List.filter_In.
    split; [exact Hp|]. now rewrite Hne.
  - rewrite Hafter. intros H. apply List.filter_In in H as [_ H].
    unfold same_object in H. now rewrite Nat.eqb_refl in H.
  - intros Hself. rewrite Hafter. apply filter_out_one; [|exact Hself].
    unfold before, readAllChildren.
    destruct (heap w !! s) as [o|] eqn:Hs; [|constructor].
    apply (wf_distinct w Hwf s o Hs).
  - intros s' Hs'. unfold destroy. rewrite readAllChildren_onDestroy.
    apply occurrences_0 in Hs'. now rewrite Hs'.
Qed.

End Descendants.

(** ** Initialization and the public token *)

Section Initialization.

(** The node kind: what [createProto(defaultConfig)(type)] closes over. *)
Variable P : Proto.

Implicit Types (w : World) (proto : Ref).

Lemma with_heap_id (f : gmap Ref ProtoStateObj -> gmap Ref ProtoStateObj) w :
  f (heap w) = heap w -> with_heap f w = w.
Proof. intros H. unfold with_heap. rewrite H. now destruct w. Qed.

Lemma readValue_publicFactory proto w r :
  readValue r (snd (publicFactory proto w)) = readValue r w.
Proof.
  unfold readValue, publicFactory, with_heap. simpl.
  rewrite lookup_alter. case_decide; [subst|reflexivity].
  now destruct (heap w !! r).
Qed.

Lemma readAllChildren_publicFactory proto w r :
  readAllChildren r (snd (publicFactory proto w)) = readAllChildren r w.
Proof.
  unfold readAllChildren, publicFactory, with_heap. simpl.
  rewrite lookup_alter. case_decide; [subst|reflexivity].
  now destruct (heap w !! r).
Qed.

(** C1.  When the state slot of the node holds a value already, the
    initializer throws the "called more than once" error in development
    mode; in production mode it returns the node's own state object, the
    public handle, and leaves the slot of every node as it was, runs no
    hook, logs nothing and touches no descendant set. *)
Theorem initState_again proto hookPath instance w current :
  readValue proto w = Some current ->
  initState true P (Some proto) hookPath instance w
    = Thrown (Error (calledTwiceMessage P))
  /\ exists w',
       initState false P (Some proto) hookPath instance w
         = Returned (proto, w')
       /\ readValue proto w' = Some current
       /\ (forall r, readValue r w' = readValue r w)
       /\ hookCalls w' = hookCalls w
       /\ console w' = console w
       /\ (forall r, readAllChildren r w' = readAllChildren r w).
Proof.
  intros Hv. unfold initState. rewrite Hv. split; [reflexivity|].
  exists (snd (publicFactory proto w)). split; [reflexivity|].
  split; [now rewrite readValue_publicFactory|].
  split; [intros r; apply readValue_publicFactory|].
  split; [reflexivity|]. split; [reflexivity|].
  intros r. apply readAllChildren_publicFactory.
Qed.

Lemma hookCalls_fold proto hooks : forall w,
  let w' := fold_left (callHook proto) hooks w in
  hookCalls w' = hookCalls w ++ map (fun h => (h, proto)) hooks
  /\ heap w' = heap w /\ console w' = console w
  /\ next w' = next w /\ computeds w' = computeds w.
Proof.
  induction hooks as [|h hooks IH]; intros w; simpl.
  - now rewrite app_nil_r.
  - destruct (IH (callHook proto w h)) as (H1 & H2 & H3 & H4 & H5).
    rewrite H1, H2, H3, H4, H5. simpl. now rewrite <- app_assoc.
Qed.

(** The first call on a node that still has its [set] member. *)
Lemma initState_first devMode proto hookPath instance w o :
  heap w !! proto = Some o -> value o = None -> has_set o = true ->
  exists w',
    initState devMode P (Some proto) hookPath instance w
      = Returned (proto, w')
    /\ heap w' !! proto
       = Some (set_props false false
                 (set_value (Some (fst (wrapInputs instance))) o))
    /\ hookCalls w'
       = hookCalls w ++ map (fun h => (h, proto)) (injectHooks hookPath).
Proof.
  intros Ho Hv Hs. unfold initState, readValue. rewrite Ho, Hv.
  destruct (wrapInputs instance) as [wrapped inputCount]. simpl.
  set (w1 := if devMode && Nat.eqb inputCount 0
             then warn (noInputsMessage P) w else w).
  assert (Hw1 : heap w1 = heap w /\ hookCalls w1 = hookCalls w)
    by (unfold w1; now destruct (devMode && Nat.eqb inputCount 0)).
  destruct Hw1 as [Hh1 Hk1].
  unfold protoSet. rewrite Hh1, Ho, Hs. simpl.
  set (w2 := with_heap (insert proto (set_value (Some wrapped) o)) w1).
  destruct (hookCalls_fold proto (injectHooks hookPath) w2) as (Hk & Hh & _).
  eexists. split; [reflexivity|]. split.
  - unfold publicFactory, with_heap. simpl. rewrite lookup_alter_eq, Hh.
    unfold w2. simpl. now rewrite lookup_insert_eq.
  - unfold publicFactory, with_heap. simpl. rewrite Hk. unfold w2. simpl.
    now rewrite Hk1.
Qed.

(** Once the public token has been resolved the object has lost [set], and
    a first call of the initializer fails at [proto.set]. *)
Lemma initState_without_set devMode proto hookPath instance w o :
  heap w !! proto = Some o -> value o = None -> has_set o = false ->
  initState devMode P (Some proto) hookPath instance w
  = Thrown (TypeError "proto.set is not a function").
Proof.
  intros Ho Hv Hs. unfold initState, readValue. rewrite Ho, Hv.
  destruct (wrapInputs instance) as [wrapped inputCount].
  unfold protoSet.
  destruct (devMode && Nat.eqb inputCount 0); simpl; now rewrite Ho, Hs.
Qed.

(** The second call, in production mode, changes nothing at all. *)
Lemma initState_twice devMode proto hp1 hp2 inst1 inst2 w o :
  heap w !! proto = Some o -> value o = None -> has_set o = true ->
  exists w1,
    initState devMode P (Some proto) hp1 inst1 w = Returned (proto, w1)
    /\ initState true P (Some proto) hp2 inst2 w1
       = Thrown (Error (calledTwiceMessage P))
    /\ initState false P (Some proto) hp2 inst2 w1 = Returned (proto, w1).
Proof.
  intros Ho Hv Hs.
  destruct (initState_first devMode proto hp1 inst1 w o Ho Hv Hs)
    as (w1 & Hfirst & Hheap & _).
  exists w1. split; [exact Hfirst|].
  unfold initState, readValue. rewrite Hheap. simpl.
  split; [reflexivity|]. unfold publicFactory. f_equal. f_equal.
  apply with_heap_id, alter_id. intros x Hx.
  rewrite Hheap in Hx. now injection Hx as <-.
Qed.

(** C10.  Resolving the public token gives back the very object the
    internal token resolves to, with its [set] and [update] members
    deleted; nothing else in the world changes, and the object, reached by
    whatever token, can no longer be written with [set]. *)
Theorem public_token_shares_object path opts w proto o :
  nearest (if skipSelf opts then tail path else path) = Some proto ->
  heap w !! proto = Some o ->
  exists w',
    injectPublicToken (publicTokenDesc P) path opts w
      = Returned (Some proto, w')
    /\ heap w' !! proto = Some (set_props false false o)
    /\ (forall r, r <> proto -> heap w' !! r = heap w !! r)
    /\ (forall v, protoSet proto v w'
                  = Thrown (TypeError "proto.set is not a function"))
    /\ injectPublicToken (publicTokenDesc P) path opts w'
       = Returned (Some proto, w').
Proof.
  intros Hn Ho. unfold injectPublicToken, inject. rewrite Hn. simpl.
  eexists. split; [reflexivity|].
  assert (Hp : heap (with_heap (alter (set_props false false) proto) w)
                 !! proto = Some (set_props false false o)).
  { unfold with_heap. simpl. now rewrite lookup_alter_eq, Ho. }
  split; [exact Hp|]. split; [|split].
  - intros r Hr. unfold with_heap. simpl. now rewrite lookup_alter_ne.
  - intros v. unfold protoSet. now rewrite Hp.
  - f_equal. f_equal. apply with_heap_id, alter_id. intros x Hx.
    rewrite Hp in Hx. now injection Hx as <-.
Qed.

(** *** Hooks *)

Lemma injectHooks_cons (own : option (list Hook)) up :
  injectHooks (own :: up) = injectHooks up ++ default [] own.
Proof.
  unfold injectHooks. destruct own as [hooks|]; simpl.
  - reflexivity.
  - now rewrite app_nil_r.
Qed.

Lemma injectHooks_root_first path :
  injectHooks path = concat (map (default []) (rev path)).
Proof.
  induction path as [|own up IH].
  - reflexivity.
  - rewrite injectHooks_cons, IH. simpl.
    rewrite map_app, concat_app. simpl. now rewrite app_nil_r.
Qed.

(** The hook list injected in a scope whose providers are as [own :: up]
    says, and the calls of the first initialization of a node there. *)
Lemma initState_runs_injected_hooks (own : option (list Hook))
    (up : list (option (list Hook))) devMode instance w proto o :
  heap w !! proto = Some o -> value o = None -> has_set o = true ->
  injectHooks (own :: up) = injectHooks up ++ default [] own
  /\ injectHooks (own :: up) = concat (map (default []) (rev (own :: up)))
  /\ exists w',
       initState devMode P (Some proto) (own :: up) instance w
         = Returned (proto, w')
       /\ hookCalls w'
          = hookCalls w
            ++ map (fun h => (h, proto)) (injectHooks up ++ default [] own).
Proof.
  intros Ho Hv Hs.
  split; [apply injectHooks_cons|]. split; [apply injectHooks_root_first|].
  destruct (initState_first devMode proto (own :: up) instance w o Ho Hv Hs)
    as (w' & Hinit & _ & Hk).
  exists w'. split; [exact Hinit|]. now rewrite Hk, injectHooks_cons.
Qed.

Lemma last_snoc_hooks (earlier : list (list Hook)) (hooks : list Hook) :
  hookProvider (earlier ++ [hooks]) = Some hooks.
Proof. unfold hookProvider. apply last_snoc. Qed.

(** C3, as amended.  The hook list injected in a scope is the hook list
    injected in the enclosing scope followed by the hooks of the provider in
    effect in the scope itself: those of the last [provideHooks] registered
    there, the hooks of an earlier registration of the same scope being
    dropped, and none when nothing is registered.  Hence it lists the hooks
    in effect in all scopes from the root down to it, in that order; and the
    first initialization of a node calls exactly these hooks, in this order,
    each with the node's state. *)
Theorem hooks_ancestors_first (registered : list (list Hook))
    (up : list (list (list Hook))) devMode instance w proto o :
  heap w !! proto = Some o -> value o = None -> has_set o = true ->
  injectHooksIn (registered :: up)
  = injectHooksIn up ++ default [] (hookProvider registered)
  /\ (forall earlier hooks, registered = earlier ++ [hooks] ->
        injectHooksIn (registered :: up) = injectHooksIn up ++ hooks)
  /\ (registered = [] -> injectHooksIn (registered :: up) = injectHooksIn up)
  /\ injectHooksIn (registered :: up)
     = concat (map (fun r => default [] (hookProvider r))
                   (rev (registered :: up)))
  /\ exists w',
       initState devMode P (Some proto) (hookProviders (registered :: up))
                 instance w
         = Returned (proto, w')
       /\ hookCalls w'
          = hookCalls w
            ++ map (fun h => (h, proto))
                   (injectHooksIn up ++ default [] (hookProvider registered)).
Proof.
  intros Ho Hv Hs.
  destruct (initState_runs_injected_hooks (hookProvider registered)
              (hookProviders up) devMode instance w proto o Ho Hv Hs)
    as (Hcons & Hroot & w' & Hinit & Hcalls).
  assert (Hstep : injectHooksIn (registered :: up)
                  = injectHooksIn up ++ default [] (hookProvider registered))
    by exact Hcons.
  split; [exact Hstep|]. split; [|split; [|split]].
  - intros earlier hooks ->. now rewrite Hstep, last_snoc_hooks.
  - intros ->. rewrite Hstep. simpl. apply app_nil_r.
  - transitivity (concat (map (default [])
                               (rev (hookProviders (registered :: up)))));
      [exact Hroot|].
    unfold hookProviders. now rewrite <- map_rev, map_map.
  - exists w'. split; [exact Hinit|exact Hcalls].
Qed.

(** C3 as stated fails where [provideHooks] is registered twice on one
    element: below a scope with the hooks 1 and 2, the registrations of the
    hook 3 and then of the hook 4 give the list 1, 2, 4, and the hook 3,
    though provided in the scope, is not run. *)
Lemma hooks_earlier_registration_dropped :
  ~ (forall (registered : list (list Hook)) (up : list (list (list Hook))),
       injectHooksIn (registered :: up)
       = injectHooksIn up ++ concat registered).
Proof.
  intros H. specialize (H [[3]; [4]] [[[1; 2]]]).
  vm_compute in H. discriminate.
Qed.

End Initialization.

(** *** The invariant along the life of a tree *)

(** A world that differs from a well-formed one only in the slots and the
    members of its state objects is well formed. *)
Lemma wf_same_shape w w' :
  wf w -> next w' = next w -> computeds w' = computeds w ->
  (forall r o', heap w' !! r = Some o' ->
     exists o, heap w !! r = Some o /\ ancestry o' = ancestry o
               /\ allChildren o' = allChildren o) ->
  wf w'.
Proof.
  intros Hwf Hn Hc Hh. split.
  - intros r o' Hl. destruct (Hh r o' Hl) as (o & Hr & _).
    rewrite Hn. now apply (wf_heap w Hwf) in Hr.
  - intros h c. rewrite Hc, Hn. apply (wf_computeds w Hwf).
  - intros r o' Hl. destruct (Hh r o' Hl) as (o & Hr & _ & ->).
    now apply (wf_distinct w Hwf r).
  - intros r o' Hl. destruct (Hh r o' Hl) as (o & Hr & _ & ->).
    rewrite Hn. now apply (wf_bound w Hwf r).
  - intros r o' Hl. destruct (Hh r o' Hl) as (o & Hr & -> & _).
    rewrite Hc. now apply (wf_view w Hwf r).
Qed.

Lemma wf_publicFactory proto w : wf w -> wf (snd (publicFactory proto w)).
Proof.
  intros Hwf. apply (wf_same_shape w); auto.
  intros r o'. unfold publicFactory, with_heap. simpl.
  rewrite lookup_alter. case_decide; [subst|eauto].
  destruct (heap w !! r) as [o|]; simpl; [|discriminate].
  intros [= <-]. eauto.
Qed.

Lemma wf_initState devMode P self hookPath instance w handle w' :
  wf w ->
  initState devMode P self hookPath instance w = Returned (handle, w') ->
  wf w'.
Proof.
  intros Hwf. unfold initState.
  destruct self as [proto|]; [|discriminate].
  destruct (readValue proto w) as [current|].
  - destruct devMode; [discriminate|]. intros [= _ <-].
    now apply wf_publicFactory.
  - destruct (wrapInputs instance) as [wrapped inputCount].
    set (w1 := if devMode && Nat.eqb inputCount 0
               then warn (noInputsMessage P) w else w).
    assert (Hw1 : wf w1).
    { unfold w1. destruct (devMode && Nat.eqb inputCount 0); [|exact Hwf].
      apply (wf_same_shape w); eauto. }
    unfold protoSet. destruct (heap w1 !! proto) as [o|] eqn:Ho; [|discriminate].
    destruct (has_set o); [|discriminate]. simpl. intros [= _ <-].
    apply wf_publicFactory.
    set (w2 := with_heap (insert proto (set_value (Some wrapped) o)) w1).
    destruct (hookCalls_fold proto (injectHooks hookPath) w2)
      as (_ & Hh & _ & Hn & Hc).
    assert (Hw2 : wf w2).
    { apply (wf_same_shape w1); auto.
      intros r o'. unfold w2, with_heap. simpl. rewrite lookup_insert.
      case_decide; [subst|eauto]. intros [= <-]. eauto. }
    apply (wf_same_shape w2); auto.
    intros r o'. rewrite Hh. eauto.
Qed.

Lemma wf_childrenOfType tok a w : wf w -> wf (snd (childrenOfType tok a w)).
Proof.
  intros Hwf. unfold childrenOfType.
  destruct (childrenByTypeCache a !! tok); [exact Hwf|]. simpl. split; simpl.
  - intros r o Hr. apply (wf_heap w Hwf) in Hr. lia.
  - intros h c. rewrite lookup_insert. case_decide; [intros _; lia|].
    intros Hl. apply (wf_computeds w Hwf) in Hl. lia.
  - apply (wf_distinct w Hwf).
  - intros r o Hr. eapply Forall_impl; [apply (wf_bound w Hwf r o Hr)|].
    simpl. intros; lia.
  - intros r o Hr. pose proof (wf_view w Hwf r o Hr) as Hv.
    rewrite lookup_insert_ne; [exact Hv|].
    apply (wf_computeds w Hwf) in Hv. lia.
Qed.

(** Every world a tree can get into is well formed. *)
Lemma wf_reachable w : reachable w -> wf w.
Proof.
  induction 1 as [|w w' _ IH Hstep]; [apply wf_empty|].
  destruct Hstep as [P chain cpath w Hok|n w|? ? ? ? ? w ? w' Hinit|proto w|tok a w].
  - now apply wf_mount.
  - now apply wf_onDestroy.
  - now apply (wf_initState _ _ _ _ _ _ _ _ IH Hinit).
  - now apply wf_publicFactory.
  - now apply wf_childrenOfType.
Qed.

(** *** The cache of childrenOfType, kept with the state object *)

Section ChildrenOfTypeCache.

Implicit Types (w : World) (s : Ref) (tok : InjectionToken).

Lemma set_ancestry_same o : set_ancestry (ancestry o) o = o.
Proof. now destruct o. Qed.

Lemma with_heap_insert_same s o w :
  heap w !! s = Some o -> with_heap (insert s o) w = w.
Proof.
  intros H. destruct w as [hp cs nx co hc]. unfold with_heap. simpl in *.
  f_equal. now apply insert_id.
Qed.

Lemma stateChildrenOfType_hit tok s w o h :
  heap w !! s = Some o -> childrenByTypeCache (ancestry o) !! tok = Some h ->
  stateChildrenOfType tok s w = (Some h, w).
Proof.
  intros Hs Hc. unfold stateChildrenOfType.
  rewrite Hs, (childrenOfType_hit tok _ w h Hc), set_ancestry_same.
  now rewrite (with_heap_insert_same s o w Hs).
Qed.

Lemma stateChildrenOfType_new tok s w o :
  heap w !! s = Some o -> childrenByTypeCache (ancestry o) !! tok = None ->
  stateChildrenOfType tok s w
  = (Some (next w),
     {| heap :=
          <[s := set_ancestry
                   (set_childrenByTypeCache
                      (<[tok := next w]> (childrenByTypeCache (ancestry o)))
                      (ancestry o)) o]> (heap w);
        computeds :=
          <[next w := {| c_source := allChildrenSignal (ancestry o);
                         c_token := tok |}]> (computeds w);
        next := S (next w); console := console w;
        hookCalls := hookCalls w |}).
Proof.
  intros Hs Hc. unfold stateChildrenOfType, childrenOfType.
  now rewrite Hs, Hc.
Qed.

Lemma cacheKept_refl w : cacheKept w w.
Proof. intros r o Hr. exists o. auto. Qed.

Lemma cacheKept_trans w1 w2 w3 :
  cacheKept w1 w2 -> cacheKept w2 w3 -> cacheKept w1 w3.
Proof.
  intros H12 H23 r o Hr.
  destruct (H12 r o Hr) as (o2 & Hr2 & Ha2 & Hs2 & Hc2).
  destruct (H23 r o2 Hr2) as (o3 & Hr3 & Ha3 & Hs3 & Hc3).
  exists o3. split; [exact Hr3|]. split; [congruence|]. split; [congruence|].
  intros tok h Hh. apply Hc3, Hc2, Hh.
Qed.

Lemma cachesOk_empty : cachesOk emptyWorld.
Proof. intros r o Hr. simpl in Hr. now rewrite lookup_empty in Hr. Qed.

Lemma cachesOk_mount P chain cpath w :
  wf w -> chain_ok w chain -> cachesOk w ->
  cachesOk (snd (mount P (Some chain) cpath w)).
Proof.
  intros Hwf Hok Hc r o' Hr tok h Hh.
  destruct (mount_effect P (Some chain) cpath w) as (_ & _ & Hcs & _).
  rewrite Hcs.
  destruct (mount_heap_inv P chain cpath w r o' Hwf Hok Hr)
    as [[-> ->]|(_ & o & Ho & Ha & _)].
  - simpl in Hh. now rewrite lookup_empty in Hh.
  - rewrite Ha in Hh |- *. pose proof (Hc r o Ho tok h Hh) as Hl.
    rewrite lookup_insert_ne; [exact Hl|].
    apply (wf_computeds w Hwf) in Hl. lia.
Qed.

(** One call keeps the invariants and what the views have cached. *)
Lemma stateChildrenOfType_inv tok s w :
  wf w -> cachesOk w ->
  wf (snd (stateChildrenOfType tok s w))
  /\ cachesOk (snd (stateChildrenOfType tok s w))
  /\ cacheKept w (snd (stateChildrenOfType tok s w)).
Proof.
  intros Hwf Hc.
  destruct (heap w !! s) as [o|] eqn:Hs.
  2: { unfold stateChildrenOfType. rewrite Hs. simpl.
       split; [exact Hwf|]. split; [exact Hc|apply cacheKept_refl]. }
  destruct (childrenByTypeCache (ancestry o) !! tok) as [h|] eqn:Hh.
  { rewrite (stateChildrenOfType_hit tok s w o h Hs Hh). simpl.
    split; [exact Hwf|]. split; [exact Hc|apply cacheKept_refl]. }
  rewrite (stateChildrenOfType_new tok s w o Hs Hh). simpl.
  assert (Hfresh : forall k c, computeds w !! k = Some c -> k <> next w).
  { intros k c Hk. apply (wf_computeds w Hwf) in Hk. lia. }
  split; [|split].
  - split; simpl.
    + intros r o' Hr. rewrite lookup_insert in Hr. case_decide.
      * subst. apply (wf_heap w Hwf) in Hs. lia.
      * apply (wf_heap w Hwf) in Hr. lia.
    + intros k c. rewrite lookup_insert. case_decide; [intros _; lia|].
      intros Hk. apply (wf_computeds w Hwf) in Hk. lia.
    + intros r o' Hr. rewrite lookup_insert in Hr. case_decide.
      * injection Hr as <-. simpl. apply (wf_distinct w Hwf s o Hs).
      * apply (wf_distinct w Hwf r o' Hr).
    + intros r o' Hr. rewrite lookup_insert in Hr.
      assert (Hb : exists o0, heap w !! r = Some o0
                              /\ allChildren o' = allChildren o0)
        by (case_decide; [injection Hr as <-; subst; eauto|eauto]).
      destruct Hb as (o0 & Ho0 & ->).
      eapply Forall_impl; [apply (wf_bound w Hwf _ o0 Ho0)|].
      simpl. intros; lia.
    + intros r o' Hr. rewrite lookup_insert in Hr. case_decide.
      * injection Hr as <-. subst. simpl.
        pose proof (wf_view w Hwf _ o Hs) as Hv.
        rewrite lookup_insert_ne; [exact Hv|].
        apply not_eq_sym, (Hfresh _ _ Hv).
      * pose proof (wf_view w Hwf r o' Hr) as Hv.
        rewrite lookup_insert_ne; [exact Hv|].
        apply not_eq_sym, (Hfresh _ _ Hv).
  - intros r o' Hr t k Hk. simpl in Hr |- *.
    rewrite lookup_insert in Hr. case_decide.
    + injection Hr as <-. simpl in Hk |- *.
      rewrite lookup_insert in Hk. case_decide.
      * injection Hk as <-. subst. apply lookup_insert_eq.
      * pose proof (Hc s o Hs t k Hk) as Hl.
        rewrite lookup_insert_ne; [exact Hl|].
        apply not_eq_sym, (Hfresh _ _ Hl).
    + pose proof (Hc r o' Hr t k Hk) as Hl.
      rewrite lookup_insert_ne; [exact Hl|].
      apply not_eq_sym, (Hfresh _ _ Hl).
  - intros r o0 Hr. simpl. rewrite lookup_insert. case_decide.
    + subst. assert (o0 = o) by congruence. subst.
      eexists. split; [reflexivity|]. simpl.
      split; [reflexivity|]. split; [reflexivity|].
      intros t k Hk. rewrite lookup_insert_ne; [exact Hk|]. congruence.
    + exists o0. auto.
Qed.

Lemma stateChildrenOfTypeAll_inv calls w :
  wf w -> cachesOk w ->
  wf (stateChildrenOfTypeAll calls w)
  /\ cachesOk (stateChildrenOfTypeAll calls w)
  /\ cacheKept w (stateChildrenOfTypeAll calls w).
Proof.
  revert w. induction calls as [|[tok s] calls IH]; intros w Hwf Hc.
  - split; [exact Hwf|]. split; [exact Hc|apply cacheKept_refl].
  - destruct (stateChildrenOfType_inv tok s w Hwf Hc) as (Hwf1 & Hc1 & Hk1).
    destruct (IH _ Hwf1 Hc1) as (Hwf2 & Hc2 & Hk2).
    split; [exact Hwf2|]. split; [exact Hc2|].
    exact (cacheKept_trans _ _ _ Hk1 Hk2).
Qed.

(** What the first call returns and leaves in the cache of the view. *)
Lemma stateChildrenOfType_result tok s w o :
  heap w !! s = Some o ->
  exists h o1,
    fst (stateChildrenOfType tok s w) = Some h
    /\ heap (snd (stateChildrenOfType tok s w)) !! s = Some o1
    /\ childrenByTypeCache (ancestry o1) !! tok = Some h
    /\ (childrenByTypeCache (ancestry o) !! tok = None -> h = next w).
Proof.
  intros Hs.
  destruct (childrenByTypeCache (ancestry o) !! tok) as [h|] eqn:Hh.
  - rewrite (stateChildrenOfType_hit tok s w o h Hs Hh). simpl.
    exists h, o. repeat split; auto. discriminate.
  - rewrite (stateChildrenOfType_new tok s w o Hs Hh). simpl.
    eexists _, _. split; [reflexivity|]. split; [apply lookup_insert_eq|].
    split; [|reflexivity]. simpl. apply lookup_insert_eq.
Qed.

(** C7.  [childrenOfType] is called on a state object with a token, then
    any calls are made on any state objects with any tokens, then it is
    called again on the first one with the same token: the second call
    returns the signal object the first one returned and creates nothing.
    That object is the computed signal over the descendant set of the view
    for this token, so it reads the entries with the token; it was created
    by the first call if no earlier call had asked for the token; and a call
    with another token returns another object. *)
Theorem childrenOfType_same_handle tok other
    (between : list (InjectionToken * Ref)) s w o :
  wf w -> cachesOk w -> heap w !! s = Some o ->
  let w1 := snd (stateChildrenOfType tok s w) in
  let w2 := stateChildrenOfTypeAll between w1 in
  exists h,
    fst (stateChildrenOfType tok s w) = Some h
    /\ stateChildrenOfType tok s w2 = (Some h, w2)
    /\ computeds w2 !! h
       = Some {| c_source := allChildrenSignal (ancestry o); c_token := tok |}
    /\ readComputed h w2
       = List.filter (hasToken tok)
           (readAllChildren (allChildrenSignal (ancestry o)) w2)
    /\ (childrenByTypeCache (ancestry o) !! tok = None ->
        h = next w /\ computeds w !! h = None)
    /\ (other <> tok -> fst (stateChildrenOfType other s w2) <> Some h).
Proof.
  intros Hwf Hc Hs w1 w2.
  destruct (stateChildrenOfType_inv tok s w Hwf Hc) as (Hwf1 & Hc1 & Hk1).
  destruct (stateChildrenOfType_result tok s w o Hs)
    as (h & o1 & Hfst & Hs1 & Hh1 & Hnew).
  fold w1 in Hwf1, Hc1, Hk1, Hs1.
  destruct (stateChildrenOfTypeAll_inv between w1 Hwf1 Hc1)
    as (Hwf2 & Hc2 & Hk2).
  fold w2 in Hwf2, Hc2, Hk2.
  destruct (Hk1 s o Hs) as (o1' & Hs1' & _ & Hsig1 & _).
  assert (o1' = o1) by congruence. subst o1'.
  destruct (Hk2 s o1 Hs1) as (o2 & Hs2 & _ & Hsig2 & Hkeep).
  pose proof (Hkeep tok h Hh1) as Hh2.
  pose proof (Hc2 s o2 Hs2 tok h Hh2) as Hcomp.
  rewrite Hsig2, Hsig1 in Hcomp.
  exists h. split; [exact Hfst|].
  split; [exact (stateChildrenOfType_hit tok s w2 o2 h Hs2 Hh2)|].
  split; [exact Hcomp|]. split; [|split].
  - unfold readComputed. now rewrite Hcomp.
  - intros Hnone. split; [now apply Hnew|].
    rewrite (Hnew Hnone).
    destruct (computeds w !! next w) as [c|] eqn:E; [|reflexivity].
    apply (wf_computeds w Hwf) in E. lia.
  - intros Hne.
    destruct (childrenByTypeCache (ancestry o2) !! other) as [h'|] eqn:Ho.
    + rewrite (stateChildrenOfType_hit other s w2 o2 h' Hs2 Ho). simpl.
      intros [= ->]. pose proof (Hc2 s o2 Hs2 other h Ho) as Hcomp'.
      rewrite Hsig2, Hsig1 in Hcomp'. congruence.
    + rewrite (stateChildrenOfType_new other s w2 o2 Hs2 Ho). simpl.
      intros [= <-]. apply (wf_computeds w2 Hwf2) in Hcomp. lia.
Qed.

End ChildrenOfTypeCache.


(** ** Required lookups *)

Section Lookups.

Variable P : Proto.

Lemma startsWith_refl s : startsWith s s = true.
Proof.
  induction s as [|a s IH]; simpl; [reflexivity|].
  now rewrite Ascii.eqb_refl, IH.
Qed.

Lemma includes_append p s : includes (p +:+ s) s = true.
Proof.
  induction p as [|a p IH]; simpl.
  - destruct s; simpl; [reflexivity|].
    now rewrite Ascii.eqb_refl, startsWith_refl.
  - rewrite IH. apply orb_true_r.
Qed.

Lemma startsWith_trans s p q :
  startsWith s p = true -> startsWith p q = true -> startsWith s q = true.
Proof.
  revert s p. induction q as [|c q IH]; intros s p Hsp Hpq.
  - now destruct s.
  - destruct p as [|b p]; [discriminate|].
    destruct s as [|a s]; [discriminate|]. simpl in *.
    apply andb_true_iff in Hsp as [Hab Hsp].
    apply andb_true_iff in Hpq as [Hbc Hpq].
    apply Ascii.eqb_eq in Hab, Hbc. subst.
    rewrite Ascii.eqb_refl. simpl. exact (IH _ _ Hsp Hpq).
Qed.

Lemma includes_unfold s u :
  includes s u
  = startsWith s u
    || match s with EmptyString => false | String _ s' => includes s' u end.
Proof. now destruct s. Qed.

Lemma includes_startsWith s p u :
  startsWith s p = true -> includes p u = true -> includes s u = true.
Proof.
  revert s. induction p as [|b p IH]; intros s Hsp Hpu.
  - rewrite includes_unfold in Hpu. rewrite orb_false_r in Hpu.
    rewrite includes_unfold, (startsWith_trans _ _ _ Hsp Hpu). reflexivity.
  - rewrite includes_unfold in Hpu. apply orb_true_iff in Hpu as [Hpu|Hpu].
    + rewrite includes_unfold, (startsWith_trans _ _ _ Hsp Hpu). reflexivity.
    + destruct s as [|a s]; [discriminate|]. simpl in Hsp.
      apply andb_true_iff in Hsp as [_ Hsp].
      rewrite includes_unfold, (IH _ Hsp Hpu). apply orb_true_r.
Qed.

Lemma includes_trans s t u :
  includes s t = true -> includes t u = true -> includes s u = true.
Proof.
  induction s as [|a s IH]; intros Hst Htu.
  - rewrite includes_unfold, orb_false_r in Hst.
    exact (includes_startsWith _ _ _ Hst Htu).
  - rewrite includes_unfold in Hst. apply orb_true_iff in Hst as [Hst|Hst].
    + exact (includes_startsWith _ _ _ Hst Htu).
    + rewrite includes_unfold, (IH Hst Htu). apply orb_true_r.
Qed.

Lemma nearest_tail {A} (path : list (option A)) :
  nearest path = None -> nearest (tail path) = None.
Proof. destruct path as [|[v|] up]; simpl; congruence. Qed.

(** C9, as amended.  With no provider on the path, a required lookup
    throws at once.  The state handle's [inject] fails inside the
    framework's lookup of the public token, with the framework's
    missing-provider error: the message the code writes for a state that is
    not initialized, which names the kind, is never reached, whatever the
    state of the world.  [injectProtoAncestor] throws its own error, whose
    text is the same for every token: it asks for the parent proto to be
    present in the hierarchy and names no kind. *)
Theorem required_lookup_without_provider path opts w desc :
  optional opts = false -> nearest path = None ->
  injectState P path opts w = Thrown (NullInjectorError (publicTokenDesc P))
  /\ injectState P path opts w <> Thrown (Error (notInitializedMessage P))
  /\ injectProtoAncestor desc path opts w
     = Thrown (Error ancestorNotFoundMessage)
  /\ mentions (Error ancestorNotFoundMessage)
              "Ensure the parent proto is present in the DOM hierarchy"
     = true
  /\ (includes desc "ProtoToken:" = true ->
      mentions (Error ancestorNotFoundMessage) desc = false).
Proof.
  intros Hopt Hnone.
  pose proof (nearest_tail path Hnone) as Htail.
  assert (Hstate : injectState P path opts w
                   = Thrown (NullInjectorError (publicTokenDesc P))).
  { unfold injectState, injectPublicToken, inject.
    destruct (skipSelf opts); rewrite ?Htail, ?Hnone, Hopt; reflexivity. }
  split; [exact Hstate|]. split; [rewrite Hstate; discriminate|].
  split; [|split].
  - unfold injectProtoAncestor, injectPublicToken, inject. simpl.
    rewrite Htail. simpl. now rewrite Hopt.
  - reflexivity.
  - intros Hdesc. unfold mentions.
    destruct (includes ancestorNotFoundMessage desc) eqn:E; [|reflexivity].
    pose proof (includes_trans _ _ _ E Hdesc) as Habs.
    vm_compute in Habs. discriminate.
Qed.

(** C9 as stated fails: the error of [injectProtoAncestor] does not name
    the kind that is missing. *)
Lemma injectProtoAncestor_names_no_kind :
  ~ (forall (P : Proto) path w, nearest path = None ->
       (exists e, injectState P path noOptions w = Thrown e
                  /\ mentions e (name P) = true)
       /\ (exists e, injectProtoAncestor (publicTokenDesc P) path noOptions w
                       = Thrown e
                     /\ mentions e (name P) = true)).
Proof.
  intros H.
  destruct (H OuterDir [] emptyWorld eq_refl) as [_ (e & He & Hm)].
  vm_compute in He. injection He as <-. vm_compute in Hm. discriminate.
Qed.

End Lookups.

(** ** Controlled inputs *)

Section Controlled.

Lemma Value_eqb_eq a b : Value_eqb a b = true <-> a = b.
Proof.
  destruct a, b; simpl; split; intros H; try discriminate;
    try (injection H as ->).
  - f_equal. now apply Bool.eqb_prop.
  - apply Bool.eqb_reflx.
  - f_equal. now apply Z.eqb_eq.
  - apply Z.eqb_refl.
  - f_equal. now apply String.eqb_eq.
  - apply String.eqb_refl.
Qed.

(** The test does not fix what a template update does to an active override:
    releasing it on every change and releasing it when the template value
    reaches the override's both pass, and they differ elsewhere.  The literal
    reading of section 4.1 does not pass. *)
Example dir1_observations :
  passesTest releaseOnChange
  /\ passesTest releaseOnAgreement
  /\ ~ passesTest neverRelease
  /\ effective (setTemplate releaseOnChange (VStr "c")
                  (control (VStr "b") (controlledInput (VStr "a"))))
     = VStr "c"
  /\ effective (setTemplate releaseOnAgreement (VStr "c")
                  (control (VStr "b") (controlledInput (VStr "a"))))
     = VStr "b".
Proof.
  repeat split; try reflexivity.
  intros [_ H]. vm_compute in H. discriminate.
Qed.




End Controlled.

(** ** Configuration *)

Section Configuration.

(** Induction on configuration values, through the fields of objects. *)
Lemma Cfg_fields_ind (Q : Cfg -> Prop) :
  (forall c, is_leaf c = true -> Q c) ->
  (forall fs, Forall (fun kv => Q (snd kv)) fs -> Q (CObj fs)) ->
  forall c, Q c.
Proof.
  intros Hleaf Hobj. fix IH 1. intros [z|s|items|fs].
  - now apply Hleaf.
  - now apply Hleaf.
  - now apply Hleaf.
  - apply Hobj. induction fs as [|[k v] fs IHfs]; constructor.
    + apply IH.
    + exact IHfs.
Qed.

Lemma assoc_In {A} k (l : list (string * A)) v :
  assoc k l = Some v -> In (k, v) l.
Proof.
  induction l as [|[k' v'] l IH]; simpl; [discriminate|].
  destruct (String.eqb_spec k k') as [->|Hne].
  - intros [= ->]. now left.
  - intros H. right. now apply IH.
Qed.

Lemma assoc_app {A} k (l1 l2 : list (string * A)) :
  assoc k (l1 ++ l2)
  = match assoc k l1 with Some v => Some v | None => assoc k l2 end.
Proof.
  induction l1 as [|[k' v'] l1 IH]; simpl; [reflexivity|].
  now destruct (String.eqb k k').
Qed.

Lemma assoc_map {A B} (g : string -> A -> B) k (l : list (string * A)) :
  assoc k (map (fun kv => (fst kv, g (fst kv) (snd kv))) l)
  = g k <$> assoc k l.
Proof.
  induction l as [|[k' v'] l IH]; simpl; [reflexivity|].
  destruct (String.eqb_spec k k') as [->|Hne]; [reflexivity|exact IH].
Qed.

Lemma assoc_filter_new {A B} k (fa : list (string * A))
    (fb : list (string * B)) :
  assoc k fa = None ->
  assoc k (List.filter (fun kv => negb (has_key (fst kv) fa)) fb)
  = assoc k fb.
Proof.
  intros Hk. induction fb as [|[k' v'] fb IH]; simpl; [reflexivity|].
  destruct (String.eqb_spec k k') as [->|Hne].
  - unfold has_key. rewrite Hk. simpl. now rewrite String.eqb_refl.
  - destruct (negb (has_key k' fa)); simpl; [|exact IH].
    destruct (String.eqb_spec k k'); [congruence|exact IH].
Qed.

(** Merging two objects: every key of the left keeps its place, merged
    with the right's value when the right has one; the keys only the right
    has follow. *)
Lemma merge_obj fa fb :
  merge (CObj fa) (CObj fb)
  = CObj (map (fun kv =>
                 (fst kv, mergeField fb (fst kv) (snd kv))) fa
          ++ List.filter (fun kv => negb (has_key (fst kv) fa)) fb).
Proof.
  simpl. f_equal. f_equal. unfold mergeField.
  induction fa as [|[k va] fa IH]; simpl; [reflexivity|].
  now rewrite IH.
Qed.

Lemma merge_leaf_left a b : is_leaf a = true -> merge a b = b.
Proof. now destruct a. Qed.

Lemma leaf_at_cons k p fs :
  leaf_at (k :: p) (CObj fs)
  = match assoc k fs with Some v => leaf_at p v | None => None end.
Proof. unfold leaf_at. simpl. now destruct (assoc k fs). Qed.

Lemma leaf_at_cons_leaf k p c : is_leaf c = true -> leaf_at (k :: p) c = None.
Proof. now destruct c. Qed.

Lemma leaf_at_nil c : leaf_at [] c = if is_leaf c then Some c else None.
Proof. reflexivity. Qed.

Lemma assoc_merged k fa fb :
  assoc k (map (fun kv =>
                  (fst kv, mergeField fb (fst kv) (snd kv))) fa
           ++ List.filter (fun kv => negb (has_key (fst kv) fa)) fb)
  = match assoc k fa with
    | Some va => Some (match assoc k fb with
                       | Some vb => merge va vb
                       | None => va
                       end)
    | None => assoc k fb
    end.
Proof.
  rewrite assoc_app, (assoc_map (mergeField fb)).
  destruct (assoc k fa) as [va|] eqn:E; simpl; [reflexivity|].
  now apply assoc_filter_new.
Qed.

(** Per leaf, the contribution wins where it defines a value, and the
    target's value stays where it does not. *)
Lemma merge_leaf p : forall a b,
  fits b a ->
  leaf_at p (merge a b)
  = match leaf_at p b with Some v => Some v | None => leaf_at p a end.
Proof.
  induction p as [|k p IH]; intros a b Hfit.
  - inversion Hfit as [a' b' Ha Hb|fa fb Hf]; subst.
    + rewrite merge_leaf_left by assumption.
      rewrite !leaf_at_nil, Hb. reflexivity.
    + rewrite merge_obj. reflexivity.
  - inversion Hfit as [a' b' Ha Hb|fa fb Hf]; subst.
    + rewrite merge_leaf_left by assumption.
      now rewrite !leaf_at_cons_leaf.
    + rewrite merge_obj, !leaf_at_cons, assoc_merged.
      destruct (assoc k fa) as [va|] eqn:Ea.
      * destruct (assoc k fb) as [vb|] eqn:Eb; [|reflexivity].
        apply IH. destruct (Hf k vb (assoc_In _ _ _ Eb)) as (va' & Ea' & Hv).
        congruence.
      * destruct (assoc k fb) as [vb|] eqn:Eb; [|reflexivity].
        destruct (Hf k vb (assoc_In _ _ _ Eb)) as (va' & Ea' & _).
        congruence.
Qed.

(** A partial of the target is a partial of the merged value as well. *)
Lemma fits_merge c : forall a b, fits c a -> fits b a -> fits c (merge a b).
Proof.
  induction c as [c Hc|fc IH] using Cfg_fields_ind; intros a b Hca Hba.
  - inversion Hca as [a' c' Ha _|fa fc' Hf]; subst; [|discriminate].
    inversion Hba as [a' b' _ Hb|fa fb Hf]; subst; [|discriminate].
    rewrite merge_leaf_left by assumption. now constructor.
  - inversion Hca as [a' c' _ Hleaf|fa fc' Hfc]; subst; [discriminate|].
    inversion Hba as [a' b' Ha _|fa' fb Hfb]; subst; [discriminate|].
    rewrite merge_obj. apply fits_obj. intros k vc Hin.
    destruct (Hfc k vc Hin) as (va & Ea & Hva).
    rewrite assoc_merged, Ea. eexists. split; [reflexivity|].
    destruct (assoc k fb) as [vb|] eqn:Eb; [|exact Hva].
    rewrite Forall_forall in IH.
    apply (IH (k, vc) (proj2 (list_elem_of_In _ _) Hin)); [exact Hva|].
    destruct (Hfb k vb (assoc_In _ _ _ Eb)) as (va' & Ea' & Hvb).
    congruence.
Qed.

Lemma firstLeaf_app p l1 l2 :
  firstLeaf p (l1 ++ l2)
  = match firstLeaf p l1 with Some v => Some v | None => firstLeaf p l2 end.
Proof.
  induction l1 as [|c l1 IH]; simpl; [reflexivity|].
  now destruct (leaf_at p c).
Qed.

(** Per leaf, the right-most contribution that defines a value wins, and
    the default is read where none does. *)
Lemma deepMerge_leaf p contributions : forall d,
  Forall (fun c => fits c d) contributions ->
  leaf_at p (deepMerge d contributions)
  = match firstLeaf p (rev contributions) with
    | Some v => Some v
    | None => leaf_at p d
    end.
Proof.
  unfold deepMerge.
  induction contributions as [|c cs IH]; intros d Hfit; simpl.
  - reflexivity.
  - inversion Hfit as [|? ? Hc Hcs]; subst.
    rewrite IH.
    + rewrite firstLeaf_app. simpl.
      destruct (firstLeaf p (rev cs)); [reflexivity|].
      rewrite merge_leaf by assumption. now destruct (leaf_at p c).
    + eapply Forall_impl; [exact Hcs|]. intros c' Hc'.
      now apply fits_merge.
Qed.

Lemma injectMulti_nearest {A} n (c : A) here farther :
  injectMulti (repeat [] n ++ (c :: here) :: farther) = Some (c :: here).
Proof. induction n as [|n IH]; simpl; [reflexivity|exact IH]. Qed.

(** C2, as amended.  The merged configuration is the deep merge of the
    default with the contributions registered in the nearest scope that
    registers any, in their registration order, and the default alone when
    no scope does; scopes that register none are passed over and the
    contributions of the scopes above the nearest registering one are not
    read.  Per leaf the last of these contributions that defines it wins,
    and a leaf none defines keeps the default, so contributions on
    different keys all take effect.  With the three contributions of the
    test registered in one scope, in the order grandparent, parent, self,
    the result is the expected one. *)
Theorem injectConfig_nearest_scope P d path :
  defaultConfig P = Some d ->
  Forall (fun c => fits c d) (default [] (injectMulti path)) ->
  injectConfig P path = deepMerge d (default [] (injectMulti path))
  /\ (forall p,
        leaf_at p (injectConfig P path)
        = match firstLeaf p (rev (default [] (injectMulti path))) with
          | Some v => Some v
          | None => leaf_at p d
          end)
  /\ (forall n (c : Cfg) here farther,
        injectMulti (repeat [] n ++ (c :: here) :: farther)
        = Some (c :: here))
  /\ (injectMulti path = None -> injectConfig P path = d)
  /\ injectConfig ProtoTestComp
       [[grandparentConfig; parentConfig; selfConfig]] = expectedConfig.
Proof.
  intros Hd Hfit. unfold injectConfig. rewrite Hd. simpl.
  split; [reflexivity|]. split; [|split; [|split]].
  - intros p. now apply deepMerge_leaf.
  - intros n c here farther. apply injectMulti_nearest.
  - now intros ->.
  - reflexivity.
Qed.

(** C2 as stated fails: with the three contributions registered in three
    nested scopes, only those of the nearest one are merged. *)
Lemma injectConfig_ignores_outer_scopes :
  ~ (forall P path,
       injectConfig P path
       = deepMerge (default (CObj []) (defaultConfig P)) (concat (rev path))).
Proof.
  intros H.
  specialize (H ProtoTestComp
                [[selfConfig]; [parentConfig]; [grandparentConfig]]).
  vm_compute in H. discriminate.
Qed.

End Configuration.

(** ** The repository's tests, replayed *)

Section Tests.

(** "ancestry.parent should return immediate parent of same type": in
    p1 > p2 > c1 > p3 > c2 the parents are none, p1, none, p2 (not c1)
    and c1. *)
Example test_ancestry_parent :
  let '(nodes, w) := renderTestAncestry in
  map node_state nodes = [0; 4; 8; 12; 16]
  /\ map (fun n => parentState n w) nodes
     = [None; Some 0; None; Some 4; Some 8]
  /\ map node_provided (firstn 3 nodes)
     = [[p1Entry]; [p1Entry; p2Entry]; [p1Entry; p2Entry; c1Entry]].
Proof. vm_compute. repeat split. Qed.

(** "ancestry.all() should return all ancestors (nearest first)",
    "ancestry.parentOfType(token) ..." and "ancestry.ancestorsOfType(token)
    ...", read from c2. *)
Example test_ancestry_queries :
  let '(nodes, w) := renderTestAncestry in
  match ancestryOf (nth 4 nodes (fst oneNode)) w with
  | Some a =>
      map state (allAncestors None a) = [12; 8; 4; 0]
      /\ map state (ancestorsOfType (publicToken ParentDir) None a) = [12; 4; 0]
      /\ map state (ancestorsSameType None a) = [8]
      /\ (state <$> parentOfType (publicToken ParentDir) a) = Some 12
      /\ (state <$> parentOfType (publicToken ChildDir) a) = Some 8
  | None => False
  end.
Proof. vm_compute. repeat split. Qed.

(** "should inject parent state of same type": of three nested items the
    first has no parent, the second finds the first, the third the second;
    and "should inject ancestor state". *)
Example test_inject_parent :
  let opt := {| optional := true; skipSelf := false |} in
  fst <$> injectProtoParent "ProtoToken:ItemDir" [Some 0] opt emptyWorld
    = Returned None
  /\ fst <$> injectProtoParent "ProtoToken:ItemDir" [Some 4; Some 0] opt
              emptyWorld = Returned (Some 0)
  /\ fst <$> injectProtoParent "ProtoToken:ItemDir" [Some 8; Some 4; Some 0] opt
              emptyWorld = Returned (Some 4)
  /\ fst <$> injectProtoAncestor "ProtoToken:OuterDir" [None; Some 0] noOptions
              emptyWorld = Returned (Some 0).
Proof. vm_compute. repeat split. Qed.

(** "ancestry.children should return all descendants of same proto type"
    and "ancestry.allChildren() ...": p4, two levels below p1 and inside a
    [ChildDir], is among the children of p1; after the block with c2 and p4
    is gone, p1 is left with p2, c1 and p3. *)
Example test_children :
  let t := renderTestChildren in
  let w := tc_world t in
  map node_state [tc_p1 t; tc_p2 t; tc_c1 t; tc_p3 t; tc_c2 t; tc_p4 t]
    = [0; 4; 8; 12; 16; 20]
  /\ childrenStates (tc_p1 t) w = [4; 12; 20]
  /\ childrenStates (tc_p2 t) w = [12]
  /\ childrenStates (tc_c2 t) w = []
  /\ allChildrenStates (tc_p1 t) w = [4; 8; 12; 16; 20]
  /\ allChildrenStates (tc_c2 t) w = [20]
  /\ childrenStates (tc_p1 t) (hideChildren t) = [4; 12]
  /\ allChildrenStates (tc_p1 t) (hideChildren t) = [4; 8; 12].
Proof. vm_compute. repeat split. Qed.

(** "ancestry.childrenOfType(token) ..." and "childrenOfType should return
    cached signal for same token": from p1 the [ChildDir] descendants are c1
    and c2, the second call returns the handle of the first, and another
    token gets another handle. *)
Example test_childrenOfType :
  let t := renderTestChildren in
  match ancestryOf (tc_p1 t) (tc_world t) with
  | Some a =>
      let '(signal1, a1, w1) :=
        childrenOfType (publicToken ChildDir) a (tc_world t) in
      let '(signal2, a2, w2) := childrenOfType (publicToken ChildDir) a1 w1 in
      let '(signal3, _, w3) := childrenOfType (publicToken ParentDir) a2 w2 in
      signal1 = signal2 /\ signal3 <> signal1
      /\ map state (readComputed signal1 w3) = [8; 16]
      /\ map state (readComputed signal3 w3) = [4; 12; 20]
  | None => False
  end.
Proof. vm_compute. repeat split. discriminate. Qed.

(** Two siblings whose entries are equal field by field, their states
    compared by contents: destroying one leaves the other in the parent's
    descendant set, where a removal by value would have taken both. *)
Example test_twins :
  let '(p, a, b, w) := twins in
  deepEqual w (node_selfEntry a) (node_selfEntry b)
  /\ same_object (node_selfEntry a) (node_selfEntry b) = false
  /\ readAllChildren (node_state p) w = [node_selfEntry a; node_selfEntry b]
  /\ readAllChildren (node_state p) (destroy a w) = [node_selfEntry b]
  /\ readAllChildren (node_state p) (destroy b w) = [node_selfEntry a].
Proof. vm_compute. repeat split. Qed.

Lemma wf_oneNode :
  wf (snd oneNode) /\ chain_ok (snd oneNode) (node_provided (fst oneNode)).
Proof. apply (wf_mount ParentDir [] [] emptyWorld wf_empty (chain_ok_nil _)). Qed.

Lemma wf_twoNodes : wf (snd twoNodes).
Proof.
  destruct wf_oneNode as [Hwf Hok].
  apply (wf_mount ParentDir _ [] _ Hwf Hok).
Qed.

End Tests.

(** ** The theorems at concrete inputs *)

Ltac solve_fits :=
  lazymatch goal with
  | |- fits (CObj _) (CObj _) =>
      apply fits_obj; intros ?k ?vb Hin; simpl in Hin;
      repeat (destruct Hin as [Hin|Hin];
              [injection Hin as <- <-; eexists; split;
               [reflexivity|solve_fits]|]);
      destruct Hin
  | |- fits _ _ => apply fits_leaf; reflexivity
  end.

(** A node initialized once, and the initializer called again. *)
Lemma initState_again_witness :
  readValue 0 initializedWorld = Some (fst (wrapInputs dirInstance))
  /\ initState true ParentDir (Some 0) [] dirInstance initializedWorld
     = Thrown (Error (calledTwiceMessage ParentDir))
  /\ exists w',
       initState false ParentDir (Some 0) [] dirInstance initializedWorld
         = Returned (0, w')
       /\ readValue 0 w' = Some (fst (wrapInputs dirInstance))
       /\ hookCalls w' = hookCalls initializedWorld.
Proof.
  split; [reflexivity|].
  destruct (initState_again ParentDir 0 [] dirInstance initializedWorld
              (fst (wrapInputs dirInstance)) eq_refl)
    as [Hdev (w' & Hprod & Hval & _ & Hhooks & _)].
  split; [exact Hdev|]. exists w'. repeat split; assumption.
Defined.

(** The contributions of the test in one scope, below a scope that
    registers none and above one that registers another. *)
Lemma injectConfig_nearest_scope_witness :
  defaultConfig ProtoTestComp = Some testConfig
  /\ Forall (fun c => fits c testConfig)
       (default []
          (injectMulti
             [[]; [grandparentConfig; parentConfig; selfConfig]; [selfConfig]]))
  /\ injectConfig ProtoTestComp
       [[]; [grandparentConfig; parentConfig; selfConfig]; [selfConfig]]
     = expectedConfig
  /\ leaf_at ["a"; "a"]
       (injectConfig ProtoTestComp
          [[]; [grandparentConfig; parentConfig; selfConfig]; [selfConfig]])
     = Some (CNum 1).
Proof.
  assert (Hfit : Forall (fun c => fits c testConfig)
            (default []
               (injectMulti
                  [[]; [grandparentConfig; parentConfig; selfConfig];
                   [selfConfig]]))).
  { simpl. unfold grandparentConfig, parentConfig, selfConfig, testConfig.
    repeat (constructor; [solve_fits|]). constructor. }
  split; [reflexivity|]. split; [exact Hfit|].
  destruct (injectConfig_nearest_scope ProtoTestComp testConfig
              [[]; [grandparentConfig; parentConfig; selfConfig]; [selfConfig]]
              eq_refl Hfit) as (Hmerge & Hleaf & _).
  split.
  - rewrite Hmerge. reflexivity.
  - rewrite Hleaf. reflexivity.
Defined.

(** Hooks registered at the root and, twice, in the node's own scope, none
    in between. *)
Lemma hooks_ancestors_first_witness :
  heap (snd oneNode) !! 0 = Some (initialState ParentDir [] [] emptyWorld)
  /\ value (initialState ParentDir [] [] emptyWorld) = None
  /\ has_set (initialState ParentDir [] [] emptyWorld) = true
  /\ injectHooksIn [[[3]; [5; 6]]; []; [[1; 2]]] = [1; 2; 5; 6]
  /\ exists w',
       initState true ParentDir (Some 0)
                 (hookProviders [[[3]; [5; 6]]; []; [[1; 2]]])
                 dirInstance (snd oneNode) = Returned (0, w')
       /\ hookCalls w' = [(1, 0); (2, 0); (5, 0); (6, 0)].
Proof.
  assert (Hheap : heap (snd oneNode) !! 0
                  = Some (initialState ParentDir [] [] emptyWorld))
    by (apply mount_new, chain_ok_nil).
  split; [exact Hheap|]. split; [reflexivity|]. split; [reflexivity|].
  destruct (hooks_ancestors_first ParentDir [[3]; [5; 6]] [[]; [[1; 2]]]
              true dirInstance (snd oneNode) 0 _ Hheap eq_refl eq_refl)
    as (Hlist & _ & _ & _ & w' & Hinit & Hcalls).
  split; [etransitivity; [exact Hlist|reflexivity]|].
  exists w'. split; [exact Hinit|]. etransitivity; [exact Hcalls|reflexivity].
Defined.

(** The inner of two nested nodes is destroyed. *)
Lemma destroy_removes_own_entry_witness :
  wf (snd twoNodes)
  /\ In 0 (map state (node_chain (fst twoNodes)))
  /\ readAllChildren 0 (snd twoNodes) = [node_selfEntry (fst twoNodes)]
  /\ readAllChildren 0 (destroy (fst twoNodes) (snd twoNodes)) = [].
Proof.
  assert (Hin : In 0 (map state (node_chain (fst twoNodes))))
    by (left; reflexivity).
  split; [exact wf_twoNodes|]. split; [exact Hin|]. split; [reflexivity|].
  destruct (destroy_removes_own_entry (fst twoNodes) (snd twoNodes) 0
              wf_twoNodes Hin) as (Hafter & _).
  rewrite Hafter. reflexivity.
Defined.

(** The chain of p3 in [TestAncestryComp], with and without c1. *)
Lemma parent_nearest_same_kind_witness :
  token c1Entry <> 1
  /\ fst (parentAfter 0
            (fst (createProtoAncestry [p1Entry; p2Entry] 1 12 emptyWorld)))
     = Some p2Entry
  /\ fst (parentAfter 3
            (fst (createProtoAncestry [p1Entry; p2Entry; c1Entry] 1 12
                                      emptyWorld)))
     = Some p2Entry.
Proof.
  assert (Hne : token c1Entry <> 1) by discriminate.
  split; [exact Hne|].
  destruct (parent_nearest_same_kind [p1Entry; p2Entry] [] c1Entry 1 12
              emptyWorld 0 3 Hne) as (Hfirst & _ & Hsame).
  split.
  - exact Hfirst.
  - etransitivity; [exact Hsame|exact Hfirst].
Defined.

(** A node is created inside the root node, and destroyed again. *)
Lemma children_same_kind_descendants_witness :
  wf (snd oneNode)
  /\ chain_ok (snd oneNode) (node_provided (fst oneNode))
  /\ heap (snd oneNode) !! 0 = Some (initialState ParentDir [] [] emptyWorld)
  /\ In 0 (map state (node_provided (fst oneNode)))
  /\ children (ancestry (initialState ParentDir [] [] emptyWorld)) (snd oneNode)
     = []
  /\ children (ancestry (initialState ParentDir [] [] emptyWorld)) (snd twoNodes)
     = [node_selfEntry (fst twoNodes)]
  /\ children (ancestry (initialState ParentDir [] [] emptyWorld))
              (destroy (fst twoNodes) (snd twoNodes))
     = [].
Proof.
  assert (Hheap : heap (snd oneNode) !! 0
                  = Some (initialState ParentDir [] [] emptyWorld))
    by (apply mount_new, chain_ok_nil).
  assert (Hin : In 0 (map state (node_provided (fst oneNode))))
    by (left; reflexivity).
  destruct wf_oneNode as [Hwf Hok].
  split; [exact Hwf|]. split; [exact Hok|]. split; [exact Hheap|].
  split; [exact Hin|].
  destruct (children_same_kind_descendants ParentDir _ [] _ 0 _
              Hwf Hok Hheap Hin) as (Hview & _ & Hadd & _ & Hgone & _).
  split; [rewrite Hview; reflexivity|]. split.
  - etransitivity; [exact Hadd|]. rewrite Hview. reflexivity.
  - etransitivity; [exact Hgone|]. rewrite Hview. reflexivity.
Defined.

(** Two scopes, neither providing the state of [OuterDir]. *)
Lemma required_lookup_without_provider_witness :
  optional noOptions = false
  /\ nearest [@None Ref; None] = None
  /\ injectState OuterDir [None; None] noOptions emptyWorld
     = Thrown (NullInjectorError "ProtoToken:OuterDir")
  /\ injectProtoAncestor (publicTokenDesc OuterDir) [None; None] noOptions
                         emptyWorld
     = Thrown (Error ancestorNotFoundMessage).
Proof.
  split; [reflexivity|]. split; [reflexivity|].
  destruct (required_lookup_without_provider OuterDir [None; None] noOptions
              emptyWorld (publicTokenDesc OuterDir) eq_refl eq_refl)
    as (Hstate & _ & Hancestor & _).
  split; [exact Hstate|exact Hancestor].
Defined.

(** The public token resolved from a scope below the root node. *)
Lemma public_token_shares_object_witness :
  nearest (if skipSelf noOptions then tail [None; Some 0] else [None; Some 0])
    = Some 0
  /\ heap (snd oneNode) !! 0 = Some (initialState ParentDir [] [] emptyWorld)
  /\ exists w',
       injectPublicToken (publicTokenDesc ParentDir) [None; Some 0] noOptions
                         (snd oneNode) = Returned (Some 0, w')
       /\ heap w' !! 0
          = Some (set_props false false
                    (initialState ParentDir [] [] emptyWorld))
       /\ protoSet 0 dirInstance w'
          = Thrown (TypeError "proto.set is not a function").
Proof.
  assert (Hheap : heap (snd oneNode) !! 0
                  = Some (initialState ParentDir [] [] emptyWorld))
    by (apply mount_new, chain_ok_nil).
  split; [reflexivity|]. split; [exact Hheap|].
  destruct (public_token_shares_object ParentDir [None; Some 0] noOptions
              (snd oneNode) 0 _ eq_refl Hheap)
    as (w' & Hinj & Hobj & _ & Hset & _).
  exists w'. split; [exact Hinj|]. split; [exact Hobj|apply Hset].
Defined.

(** The root node is asked for its [ChildDir] descendants, then for two
    other kinds, then for its [ChildDir] descendants again. *)
Lemma childrenOfType_same_handle_witness :
  wf (snd oneNode)
  /\ cachesOk (snd oneNode)
  /\ heap (snd oneNode) !! 0 = Some (initialState ParentDir [] [] emptyWorld)
  /\ exists h,
       fst (stateChildrenOfType 2 0 (snd oneNode)) = Some h
       /\ fst (stateChildrenOfType 2 0
                 (stateChildrenOfTypeAll [(1, 0); (3, 0)]
                    (snd (stateChildrenOfType 2 0 (snd oneNode)))))
          = Some h.
Proof.
  assert (Hheap : heap (snd oneNode) !! 0
                  = Some (initialState ParentDir [] [] emptyWorld))
    by (apply mount_new, chain_ok_nil).
  assert (Hcaches : cachesOk (snd oneNode))
    by (apply cachesOk_mount;
        [exact wf_empty|apply chain_ok_nil|exact cachesOk_empty]).
  destruct wf_oneNode as [Hwf _].
  split; [exact Hwf|]. split; [exact Hcaches|]. split; [exact Hheap|].
  destruct (childrenOfType_same_handle 2 1 [(1, 0); (3, 0)] 0 _ _
              Hwf Hcaches Hheap) as (h & Hfirst & Hsecond & _).
  exists h. split; [exact Hfirst|].
  exact (f_equal fst Hsecond).
Defined.


(** * Further properties of the runtime *)

(** ** Ancestor queries *)

Section AncestorQueries.

Lemma find_head_filter {A} (f : A -> bool) (l : list A) :
  List.find f l = head (List.filter f l).
Proof.
  induction l as [|x l IH]; simpl; [reflexivity|].
  now destruct (f x).
Qed.

Lemma filter_filter_andb {A} (f g : A -> bool) (l : list A) :
  List.filter g (List.filter f l) = List.filter (fun x => f x && g x) l.
Proof.
  induction l as [|x l IH]; simpl; [reflexivity|].
  destruct (f x); simpl; [destruct (g x)|]; now rewrite IH.
Qed.

(** X1.  On the view built for a node: [parentOfType(token)] is the first
    element of [ancestorsOfType(token)]; [parent], at any read, is
    [parentOfType] of the node's own token; and a predicate given to
    [ancestorsOfType] selects, in nearest-first order, the entries of
    [allAncestors()] that have the token and pass the predicate. *)
Theorem parentOfType_heads_ancestorsOfType
    (chain : list ProtoAncestorEntry) (own tok : InjectionToken) (sig : Ref)
    (w : World) (predicate : ProtoAncestorEntry -> bool) (n : nat) :
  let a := fst (createProtoAncestry chain own sig w) in
  parentOfType tok a = head (ancestorsOfType tok None a)
  /\ fst (parentAfter n a) = parentOfType own a
  /\ ancestorsSameType None a = ancestorsOfType own None a
  /\ ancestorsOfType tok (Some predicate) a
     = List.filter (fun e => hasToken tok e && predicate e)
                   (allAncestors None a)
  /\ allAncestors None a = rev chain.
Proof.
  intros a. split; [apply find_head_filter|]. split; [|split; [|split]].
  - rewrite parentAfter_result; [reflexivity|]. intros p Hp. discriminate.
  - reflexivity.
  - apply filter_filter_andb.
  - reflexivity.
Qed.

End AncestorQueries.

(** ** Creation and destruction, on the whole heap *)

Section Lifetimes.

Implicit Types (w : World) (chain : list ProtoAncestorEntry).

Lemma World_eq w w' :
  heap w = heap w' -> computeds w = computeds w' -> next w = next w' ->
  console w = console w' -> hookCalls w = hookCalls w' -> w = w'.
Proof. destruct w, w'; simpl; intros; now subst. Qed.

(** What [onDestroy] leaves in each cell of the heap. *)
Lemma onDestroy_heap e chain w r :
  heap (onDestroy e chain w) !! r
  = (fun o => set_allChildren
                (if Nat.eqb (occurrences r chain) 0 then allChildren o
                 else List.filter (fun p => negb (same_object p e))
                                  (allChildren o)) o)
      <$> heap w !! r.
Proof.
  unfold onDestroy. rewrite updates_heap.
  destruct (heap w !! r) as [o|]; simpl; [|reflexivity].
  now rewrite iter_filter.
Qed.

Lemma onDestroy_rest e chain w :
  computeds (onDestroy e chain w) = computeds w
  /\ next (onDestroy e chain w) = next w
  /\ console (onDestroy e chain w) = console w
  /\ hookCalls (onDestroy e chain w) = hookCalls w.
Proof. apply updates_rest. Qed.

Lemma filter_comm {A} (f g : A -> bool) (l : list A) :
  List.filter f (List.filter g l) = List.filter g (List.filter f l).
Proof.
  rewrite !filter_filter_andb. apply List.filter_ext.
  intros x. apply andb_comm.
Qed.

Lemma filter_idem {A} (f : A -> bool) (l : list A) :
  List.filter f (List.filter f l) = List.filter f l.
Proof.
  rewrite filter_filter_andb. apply List.filter_ext.
  intros x. now destruct (f x).
Qed.

(** X2.  A node created under the chain another node provides sees that
    node first: the provided chain is the node's own chain followed by one
    entry for the node, and the child's [allAncestors()] is that entry
    followed by the node's ancestors; [parentOfType] of the node's kind is
    that entry. *)
Theorem child_sees_node_first P Q chain cp1 cp2 w :
  wf w -> chain_ok w chain ->
  let n := fst (mount P (Some chain) cp1 w) in
  let w1 := snd (mount P (Some chain) cp1 w) in
  let c := fst (mount Q (Some (node_provided n)) cp2 w1) in
  let w2 := snd (mount Q (Some (node_provided n)) cp2 w1) in
  exists e a,
    node_provided n = chain ++ [e]
    /\ state e = node_state n /\ token e = publicToken P
    /\ node_chain c = node_provided n
    /\ ancestryOf c w2 = Some a
    /\ allAncestors None a = e :: rev chain
    /\ parentOfType (publicToken P) a = Some e
    /\ currentToken a = publicToken Q.
Proof.
  intros Hwf Hok n w1 c w2.
  destruct (mount_effect P (Some chain) cp1 w) as (Hn & Hnx & _).
  change (default [] (Some chain)) with chain in Hn.
  destruct (wf_mount P chain cp1 w Hwf Hok) as [Hwf1 Hok1].
  fold n w1 in Hn, Hnx, Hwf1, Hok1.
  destruct (mount_effect Q (Some (node_provided n)) cp2 w1) as (Hc & _).
  change (default [] (Some (node_provided n))) with (node_provided n) in Hc.
  change (fst (mount Q (Some (node_provided n)) cp2 w1)) with c in Hc.
  pose proof (mount_new Q (node_provided n) cp2 w1 Hok1) as Hnew.
  change (snd (mount Q (Some (node_provided n)) cp2 w1)) with w2 in Hnew.
  exists {| entry_ref := S (S (S (next w))); token := publicToken P;
            state := next w |}.
  exists (ancestry (initialState Q (node_provided n) cp2 w1)).
  assert (Hprov : node_provided n
                  = chain ++ [{| entry_ref := S (S (S (next w)));
                                 token := publicToken P; state := next w |}])
    by now rewrite Hn.
  split; [exact Hprov|]. split; [now rewrite Hn|]. split; [reflexivity|].
  split; [now rewrite Hc|].
  split; [unfold ancestryOf; rewrite Hc; cbn [node_state]; now rewrite Hnew|].
  cbn [initialState ancestry allAncestors ancestors parentOfType currentToken].
  rewrite Hprov, rev_app_distr. cbn [rev app List.find hasToken token].
  split; [reflexivity|]. split; [|reflexivity].
  unfold parentOfType, hasToken. simpl. now rewrite Nat.eqb_refl.
Qed.

(** A root node of kind [ParentDir] and a [ChildDir] created inside it. *)
Lemma child_sees_node_first_witness :
  wf emptyWorld /\ chain_ok emptyWorld []
  /\ exists e a,
       node_provided (fst oneNode) = [] ++ [e]
       /\ state e = 0
       /\ ancestryOf
            (fst (mount ChildDir (Some (node_provided (fst oneNode))) []
                        (snd oneNode)))
            (snd (mount ChildDir (Some (node_provided (fst oneNode))) []
                        (snd oneNode))) = Some a
       /\ allAncestors None a = [e]
       /\ parentOfType (publicToken ParentDir) a = Some e.
Proof.
  split; [exact wf_empty|]. split; [apply chain_ok_nil|].
  destruct (child_sees_node_first ParentDir ChildDir [] [] [] emptyWorld
              wf_empty (chain_ok_nil _))
    as (e & a & H1 & H2 & _ & _ & H5 & H6 & H7 & _).
  exists e, a. repeat split; assumption.
Defined.

(** X3.  Creating a node touches nothing but the descendant sets of the
    objects on its chain: an object off the chain is left exactly as it was,
    an object on the chain gains the new entry at the end of its set and
    keeps everything else, the console and the hook log are unchanged, and
    the new object starts with a null slot, an empty descendant set and its
    [set] and [update] members. *)
Theorem mount_frame P chain cpath w r o :
  wf w -> chain_ok w chain -> heap w !! r = Some o ->
  let n := fst (mount P (Some chain) cpath w) in
  let w1 := snd (mount P (Some chain) cpath w) in
  heap w1 !! r
    = Some (if onChain r chain
            then set_allChildren (allChildren o ++ [node_selfEntry n]) o
            else o)
  /\ node_state n <> r
  /\ heap w1 !! node_state n = Some (initialState P chain cpath w)
  /\ readValue (node_state n) w1 = None
  /\ readAllChildren (node_state n) w1 = []
  /\ console w1 = console w /\ hookCalls w1 = hookCalls w.
Proof.
  intros Hwf Hok Hr n w1.
  destruct (mount_effect P (Some chain) cpath w)
    as (Hn & _ & _ & Hco & Hhk & _).
  change (default [] (Some chain)) with chain in Hn. fold n w1 in Hn, Hco, Hhk.
  pose proof (mount_new P chain cpath w Hok) as Hnew. fold w1 in Hnew.
  assert (Hs : node_state n = next w) by now rewrite Hn.
  split; [|split; [|split; [|split; [|split; [|split]]]]];
    [| | | | |exact Hco|exact Hhk].
  - unfold w1, n. rewrite (mount_old P chain cpath w r o Hwf Hok Hr).
    destruct (onChain r chain); [reflexivity|].
    now rewrite set_allChildren_same.
  - rewrite Hs. apply (wf_heap w Hwf) in Hr. lia.
  - rewrite Hs. exact Hnew.
  - unfold readValue. now rewrite Hs, Hnew.
  - unfold readAllChildren. now rewrite Hs, Hnew.
Qed.

(** The root node while a second node is created inside it. *)
Lemma mount_frame_witness :
  wf (snd oneNode) /\ chain_ok (snd oneNode) (node_provided (fst oneNode))
  /\ heap (snd oneNode) !! 0 = Some (initialState ParentDir [] [] emptyWorld)
  /\ readAllChildren 0 (snd twoNodes) = [node_selfEntry (fst twoNodes)]
  /\ readValue (node_state (fst twoNodes)) (snd twoNodes) = None.
Proof.
  assert (Hheap : heap (snd oneNode) !! 0
                  = Some (initialState ParentDir [] [] emptyWorld))
    by (apply mount_new, chain_ok_nil).
  destruct wf_oneNode as [Hwf Hok].
  split; [exact Hwf|]. split; [exact Hok|]. split; [exact Hheap|].
  destruct (mount_frame ParentDir _ [] _ 0 _ Hwf Hok Hheap)
    as (Hcell & _ & _ & Hval & _).
  split; [|exact Hval].
  unfold readAllChildren. unfold twoNodes. rewrite Hcell. reflexivity.
Defined.

(** X4.  Creating a node and destroying it again gives every object that was
    there before back as it was, descendant sets included. *)
Theorem mount_destroy_restores P chain cpath w r o :
  wf w -> chain_ok w chain -> heap w !! r = Some o ->
  let n := fst (mount P (Some chain) cpath w) in
  let w1 := snd (mount P (Some chain) cpath w) in
  heap (destroy n w1) !! r = Some o
  /\ console (destroy n w1) = console w
  /\ hookCalls (destroy n w1) = hookCalls w.
Proof.
  intros Hwf Hok Hr n w1.
  destruct (mount_frame P chain cpath w r o Hwf Hok Hr)
    as (Hcell & _ & _ & _ & _ & Hco & Hhk).
  fold n w1 in Hcell, Hco, Hhk.
  destruct (mount_effect P (Some chain) cpath w) as (Hn & _).
  change (default [] (Some chain)) with chain in Hn. fold n in Hn.
  destruct (onDestroy_rest (node_selfEntry n) (node_chain n) w1)
    as (_ & _ & Hco' & Hhk').
  split; [|split; unfold destroy; congruence].
  unfold destroy. rewrite onDestroy_heap, Hcell.
  assert (Hchain : node_chain n = chain) by now rewrite Hn.
  rewrite Hchain, (chain_ok_occurrences w chain r Hok).
  destruct (onChain r chain); simpl.
  - f_equal. transitivity (set_allChildren (allChildren o) o);
      [|apply set_allChildren_same].
    unfold set_allChildren. simpl. f_equal.
    rewrite List.filter_app. simpl.
    unfold same_object at 2. rewrite Nat.eqb_refl. simpl.
    rewrite app_nil_r. apply (filter_fresh _ (next w)).
    + apply (wf_bound w Hwf r o Hr).
    + simpl. lia.
  - now rewrite set_allChildren_same.
Qed.

(** The root node, with a second node created inside it and destroyed. *)
Lemma mount_destroy_restores_witness :
  wf (snd oneNode) /\ chain_ok (snd oneNode) (node_provided (fst oneNode))
  /\ heap (snd oneNode) !! 0 = Some (initialState ParentDir [] [] emptyWorld)
  /\ heap (destroy (fst twoNodes) (snd twoNodes)) !! 0
     = Some (initialState ParentDir [] [] emptyWorld).
Proof.
  assert (Hheap : heap (snd oneNode) !! 0
                  = Some (initialState ParentDir [] [] emptyWorld))
    by (apply mount_new, chain_ok_nil).
  destruct wf_oneNode as [Hwf Hok].
  split; [exact Hwf|]. split; [exact Hok|]. split; [exact Hheap|].
  destruct (mount_destroy_restores ParentDir _ [] _ 0 _ Hwf Hok Hheap)
    as (Hback & _).
  exact Hback.
Defined.

(** X5.  The destruction callbacks of two nodes can run in either order, and
    running those of one node a second time changes nothing. *)
Theorem destroy_order_irrelevant (a b : Node) w :
  destroy a (destroy b w) = destroy b (destroy a w)
  /\ destroy a (destroy a w) = destroy a w.
Proof.
  assert (Hcell : forall (x y : Node) r,
    heap (destroy x (destroy y w)) !! r
    = (fun o =>
         set_allChildren
           ((if Nat.eqb (occurrences r (node_chain x)) 0 then fun l => l
             else List.filter
                    (fun p => negb (same_object p (node_selfEntry x))))
              ((if Nat.eqb (occurrences r (node_chain y)) 0 then fun l => l
                else List.filter
                       (fun p => negb (same_object p (node_selfEntry y))))
                 (allChildren o))) o) <$> heap w !! r).
  { intros x y r. unfold destroy. rewrite !onDestroy_heap.
    destruct (heap w !! r) as [o|]; simpl; [|reflexivity].
    destruct (Nat.eqb (occurrences r (node_chain x)) 0),
             (Nat.eqb (occurrences r (node_chain y)) 0); reflexivity. }
  assert (Hrest : forall (x y : Node),
    computeds (destroy x (destroy y w)) = computeds w
    /\ next (destroy x (destroy y w)) = next w
    /\ console (destroy x (destroy y w)) = console w
    /\ hookCalls (destroy x (destroy y w)) = hookCalls w).
  { intros x y. unfold destroy.
    destruct (onDestroy_rest (node_selfEntry x) (node_chain x)
                (onDestroy (node_selfEntry y) (node_chain y) w))
      as (H1 & H2 & H3 & H4).
    destruct (onDestroy_rest (node_selfEntry y) (node_chain y) w)
      as (G1 & G2 & G3 & G4).
    repeat split; congruence. }
  split.
  - destruct (Hrest a b) as (H1 & H2 & H3 & H4).
    destruct (Hrest b a) as (G1 & G2 & G3 & G4).
    apply World_eq; try congruence.
    apply map_eq. intros r. rewrite !Hcell.
    destruct (heap w !! r) as [o|]; simpl; [|reflexivity].
    f_equal. f_equal.
    destruct (Nat.eqb (occurrences r (node_chain a)) 0),
             (Nat.eqb (occurrences r (node_chain b)) 0);
      try reflexivity. apply filter_comm.
  - destruct (Hrest a a) as (H1 & H2 & H3 & H4).
    assert (G : computeds (destroy a w) = computeds w
                /\ next (destroy a w) = next w
                /\ console (destroy a w) = console w
                /\ hookCalls (destroy a w) = hookCalls w)
      by apply onDestroy_rest.
    destruct G as (G1 & G2 & G3 & G4).
    apply World_eq; try congruence.
    apply map_eq. intros r.
    rewrite Hcell. unfold destroy. rewrite onDestroy_heap.
    destruct (heap w !! r) as [o|]; simpl; [|reflexivity].
    f_equal. f_equal.
    destruct (Nat.eqb (occurrences r (node_chain a)) 0);
      [reflexivity|apply filter_idem].
Qed.

End Lifetimes.

(** ** The signals of [childrenOfType] *)

Section ChildrenOfType.

Implicit Types (w : World) (a : ProtoAncestry) (tok : InjectionToken).

Lemma childrenOfType_miss tok a w :
  childrenByTypeCache a !! tok = None ->
  childrenOfType tok a w
  = (next w,
     set_childrenByTypeCache (<[tok := next w]> (childrenByTypeCache a)) a,
     snd (computed {| c_source := allChildrenSignal a; c_token := tok |} w)).
Proof. unfold childrenOfType. now intros ->. Qed.

(** X6.  On a view whose cache is sound, in a well-formed world,
    [childrenOfType(token)] returns a signal that reads the entries of the
    view's descendant set with that token; the call leaves the heap and every
    signal made before as they were and keeps the cache sound; and a call
    with another token returns another signal. *)
Theorem childrenOfType_reads tok other a w :
  wf w -> cacheOk a w ->
  let h := fst (fst (childrenOfType tok a w)) in
  let a' := snd (fst (childrenOfType tok a w)) in
  let w' := snd (childrenOfType tok a w) in
  readComputed h w'
    = List.filter (hasToken tok) (readAllChildren (allChildrenSignal a) w')
  /\ cacheOk a' w' /\ wf w'
  /\ heap w' = heap w
  /\ (forall h0 c, computeds w !! h0 = Some c -> computeds w' !! h0 = Some c)
  /\ (other <> tok -> fst (fst (childrenOfType other a' w')) <> h).
Proof.
  intros Hwf Hok h a' w'.
  assert (Hwf' : wf w') by apply (wf_childrenOfType tok a w Hwf).
  destruct (childrenByTypeCache a !! tok) as [cached|] eqn:Hc.
  - pose proof (childrenOfType_hit tok a w cached Hc) as E.
    unfold h, a', w' in *. rewrite E in *. simpl.
    pose proof (Hok tok cached Hc) as Hsig.
    split; [unfold readComputed; now rewrite Hsig|].
    split; [exact Hok|]. split; [exact Hwf|]. split; [reflexivity|].
    split; [auto|]. intros Hne.
    destruct (childrenByTypeCache a !! other) as [h2|] eqn:Hc2.
    + rewrite (childrenOfType_hit other a w h2 Hc2). simpl.
      intros ->. pose proof (Hok other cached Hc2) as Hsig2.
      rewrite Hsig in Hsig2. injection Hsig2 as Heq. congruence.
    + rewrite (childrenOfType_miss other a w Hc2). simpl.
      apply (wf_computeds w Hwf) in Hsig. lia.
  - pose proof (childrenOfType_miss tok a w Hc) as E.
    unfold h, a', w' in *. rewrite E in *. simpl.
    assert (Hkeep : forall h0 c, computeds w !! h0 = Some c ->
              <[next w := {| c_source := allChildrenSignal a; c_token := tok |}]>
                (computeds w) !! h0 = Some c).
    { intros h0 c Hl. rewrite lookup_insert_ne; [exact Hl|].
      apply (wf_computeds w Hwf) in Hl. lia. }
    split; [unfold readComputed; simpl; now rewrite lookup_insert_eq|].
    split; [|split; [exact Hwf'|split; [reflexivity|split; [exact Hkeep|]]]].
    + intros tok0 h0. simpl. rewrite lookup_insert.
      case_decide as Ht; [subst tok0|].
      * intros [= <-]. apply lookup_insert_eq.
      * intros Hl. apply Hkeep. now apply Hok.
    + intros Hne.
      assert (Hc2 : <[tok := next w]> (childrenByTypeCache a) !! other
                    = childrenByTypeCache a !! other)
        by (apply lookup_insert_ne; congruence).
      destruct (childrenByTypeCache a !! other) as [h2|] eqn:Hl.
      * erewrite childrenOfType_hit by (simpl; exact Hc2). simpl.
        pose proof (Hok other h2 Hl) as Hsig.
        apply (wf_computeds w Hwf) in Hsig. lia.
      * erewrite childrenOfType_miss by (simpl; exact Hc2). simpl. lia.
Qed.

(** The view of the root node, asked for its [ChildDir] descendants while a
    [ParentDir] is its only descendant. *)
Lemma childrenOfType_reads_witness :
  wf (snd twoNodes)
  /\ cacheOk (ancestry (initialState ParentDir [] [] emptyWorld)) (snd twoNodes)
  /\ readComputed
       (fst (fst (childrenOfType (publicToken ChildDir)
                    (ancestry (initialState ParentDir [] [] emptyWorld))
                    (snd twoNodes))))
       (snd (childrenOfType (publicToken ChildDir)
               (ancestry (initialState ParentDir [] [] emptyWorld))
               (snd twoNodes)))
     = [].
Proof.
  assert (Hcache : cacheOk (ancestry (initialState ParentDir [] [] emptyWorld))
                           (snd twoNodes)).
  { intros tok h Hl. simpl in Hl. rewrite lookup_empty in Hl. discriminate. }
  split; [exact wf_twoNodes|]. split; [exact Hcache|].
  destruct (childrenOfType_reads (publicToken ChildDir) (publicToken ParentDir)
              _ _ wf_twoNodes Hcache) as (Hread & _).
  etransitivity; [exact Hread|reflexivity].
Defined.

End ChildrenOfType.

(** ** Looking states up *)

Section StateLookups.

Variable P : Proto.

Implicit Types (w : World) (path : list (option Ref)) (opts : InjectOptions).

(** X7.  [injectProtoAncestor] and [injectProtoParent] never look at the
    scope they are called in.  When a provider is found above, both return
    its state, after the public factory has run on it; when none is found
    and the lookup is optional, both return [null]; when none is found and
    the lookup is required, [injectProtoAncestor] throws its own error and
    [injectProtoParent] lets the framework's missing-provider error for the
    token through. *)
Theorem inject_helpers_compared (desc : string) path opts w :
  match nearest (tail path) with
  | Some s =>
      injectProtoAncestor desc path opts w
        = Returned (Some s, snd (publicFactory s w))
      /\ injectProtoParent desc path opts w
         = Returned (Some s, snd (publicFactory s w))
  | None =>
      if optional opts
      then injectProtoAncestor desc path opts w = Returned (None, w)
           /\ injectProtoParent desc path opts w = Returned (None, w)
      else injectProtoAncestor desc path opts w
             = Thrown (Error ancestorNotFoundMessage)
           /\ injectProtoParent desc path opts w
              = Thrown (NullInjectorError desc)
  end.
Proof.
  unfold injectProtoAncestor, injectProtoParent, injectPublicToken, inject.
  simpl. destruct (nearest (tail path)) as [s|]; simpl; [now split|].
  destruct (optional opts); simpl; now split.
Qed.

Lemma includes_skip p t s : includes t s = true -> includes (p +:+ t) s = true.
Proof.
  intros H. induction p as [|c p IH]; simpl; [exact H|].
  rewrite IH. apply orb_true_r.
Qed.

Lemma startsWith_append s t : startsWith (s +:+ t) s = true.
Proof.
  induction s as [|c s IH]; simpl; [now destruct t|].
  now rewrite Ascii.eqb_refl, IH.
Qed.

Lemma includes_prefix s t : includes (s +:+ t) s = true.
Proof.
  destruct s as [|c s]; simpl.
  - now destruct t.
  - now rewrite Ascii.eqb_refl, startsWith_append.
Qed.

Lemma injectState_found path opts w s :
  nearest (if skipSelf opts then tail path else path) = Some s ->
  injectState P path opts w
  = match readValue s w with
    | Some _ => Returned (Some s, snd (publicFactory s w))
    | None =>
        if optional opts then Returned (Some s, snd (publicFactory s w))
        else Thrown (Error (notInitializedMessage P))
    end.
Proof.
  intros Hn. unfold injectState, injectPublicToken, inject. rewrite Hn. simpl.
  pose proof (readValue_publicFactory s w s) as Hrv.
  unfold publicFactory in Hrv. simpl in Hrv. rewrite Hrv.
  destruct (readValue s w); simpl; [now rewrite andb_false_r|].
  rewrite andb_true_r. now destruct (optional opts).
Qed.

(** X8.  A required [State.inject()] that returns has found a provider and
    returns an initialized state: where a provider is found whose slot is
    still null, it throws the "not initialized" error, which names the kind
    and the call that is missing. *)
Theorem injectState_required path opts w :
  optional opts = false ->
  (forall st w', injectState P path opts w = Returned (st, w') ->
     exists s instance,
       st = Some s
       /\ nearest (if skipSelf opts then tail path else path) = Some s
       /\ readValue s w' = Some instance)
  /\ (forall s, nearest (if skipSelf opts then tail path else path) = Some s ->
        readValue s w = None ->
        injectState P path opts w = Thrown (Error (notInitializedMessage P)))
  /\ mentions (Error (notInitializedMessage P)) (name P) = true
  /\ mentions (Error (notInitializedMessage P)) "Proto.initState()" = true.
Proof.
  intros Hopt. split; [|split; [|split]].
  - intros st w' H.
    destruct (nearest (if skipSelf opts then tail path else path))
      as [s|] eqn:Hn.
    + rewrite (injectState_found path opts w s Hn), Hopt in H.
      destruct (readValue s w) as [instance|] eqn:Hv; [|discriminate].
      injection H as <- <-. exists s, instance.
      repeat split. rewrite <- Hv. apply (readValue_publicFactory s w s).
    + unfold injectState, injectPublicToken, inject in H.
      rewrite Hn, Hopt in H. discriminate.
  - intros s Hn Hv. now rewrite (injectState_found path opts w s Hn), Hv, Hopt.
  - unfold mentions, notInitializedMessage. apply includes_prefix.
  - unfold mentions, notInitializedMessage.
    apply includes_skip, includes_skip, includes_skip. reflexivity.
Qed.

(** X9.  An optional [State.inject()] that reaches a node before its
    initializer has run returns the node's state with the slot still null,
    and has taken [set] off the object: the initializer of that node then
    fails at [proto.set], in development and in production mode alike. *)
Theorem injectState_before_initState path opts w proto o :
  heap w !! proto = Some o -> value o = None ->
  nearest (if skipSelf opts then tail path else path) = Some proto ->
  optional opts = true ->
  exists w1,
    injectState P path opts w = Returned (Some proto, w1)
    /\ readValue proto w1 = None
    /\ forall devMode hookPath instance,
         initState devMode P (Some proto) hookPath instance w1
         = Thrown (TypeError "proto.set is not a function").
Proof.
  intros Ho Hv Hn Hopt.
  assert (Hval : readValue proto w = None)
    by (unfold readValue; now rewrite Ho).
  exists (snd (publicFactory proto w)).
  split; [now rewrite (injectState_found path opts w proto Hn), Hval, Hopt|].
  split; [now rewrite readValue_publicFactory|].
  intros devMode hookPath instance.
  apply (initState_without_set P devMode proto hookPath instance _
           (set_props false false o)); [|exact Hv|reflexivity].
  unfold publicFactory, with_heap. simpl. now rewrite lookup_alter_eq, Ho.
Qed.

End StateLookups.

(** The root node before its initializer has run. *)
Lemma injectState_required_witness :
  optional noOptions = false
  /\ injectState ParentDir [Some 0] noOptions (snd oneNode)
     = Thrown (Error (notInitializedMessage ParentDir)).
Proof.
  split; [reflexivity|].
  destruct (injectState_required ParentDir [Some 0] noOptions (snd oneNode)
              eq_refl) as (_ & Hthrow & _).
  apply (Hthrow 0); reflexivity.
Defined.

(** The root node, looked up optionally before it is initialized. *)
Lemma injectState_before_initState_witness :
  heap (snd oneNode) !! 0 = Some (initialState ParentDir [] [] emptyWorld)
  /\ value (initialState ParentDir [] [] emptyWorld) = None
  /\ nearest [Some 0] = Some 0
  /\ exists w1,
       injectState ParentDir [Some 0] {| optional := true; skipSelf := false |}
                   (snd oneNode) = Returned (Some 0, w1)
       /\ initState true ParentDir (Some 0) [] dirInstance w1
          = Thrown (TypeError "proto.set is not a function").
Proof.
  assert (Hheap : heap (snd oneNode) !! 0
                  = Some (initialState ParentDir [] [] emptyWorld))
    by (apply mount_new, chain_ok_nil).
  split; [exact Hheap|]. split; [reflexivity|]. split; [reflexivity|].
  destruct (injectState_before_initState ParentDir [Some 0]
              {| optional := true; skipSelf := false |} (snd oneNode) 0 _
              Hheap eq_refl eq_refl eq_refl) as (w1 & Hinj & _ & Hinit).
  exists w1. split; [exact Hinj|apply Hinit].
Defined.

(** ** The first initialization *)

Section FirstInitialization.

Variable P : Proto.

Implicit Types (w : World) (proto : Ref) (instance : Instance).

Lemma wrapInputs_map instance :
  wrapInputs instance
  = (map (fun kf => (fst kf, wrapField (snd kf))) instance,
     length (List.filter (fun kf => isInputSignal (snd kf)) instance)).
Proof.
  induction instance as [|[key f] rest IH]; simpl; [reflexivity|].
  rewrite IH. now destruct f.
Qed.

(** X10.  The first call of the initializer on a node that still has [set]
    returns the node's state object; the slot then holds the instance with
    the same keys in the same order, every input signal wrapped and every
    other member as it was; the object has lost [set] and [update]; and the
    console has gained the "no input signals" warning exactly when the call
    is made in development mode on an instance without input signals. *)
Theorem initState_wraps_inputs devMode proto hookPath instance w o :
  heap w !! proto = Some o -> value o = None -> has_set o = true ->
  exists w',
    initState devMode P (Some proto) hookPath instance w = Returned (proto, w')
    /\ readValue proto w'
       = Some (map (fun kf => (fst kf, wrapField (snd kf))) instance)
    /\ heap w' !! proto
       = Some (set_props false false
                 (set_value
                    (Some (map (fun kf => (fst kf, wrapField (snd kf)))
                               instance)) o))
    /\ console w'
       = console w
         ++ (if devMode
                && Nat.eqb (length (List.filter
                                      (fun kf => isInputSignal (snd kf))
                                      instance)) 0
             then [noInputsMessage P] else []).
Proof.
  intros Ho Hv Hs. unfold initState, readValue. rewrite Ho, Hv.
  rewrite wrapInputs_map.
  set (wrapped := map (fun kf => (fst kf, wrapField (snd kf))) instance).
  set (count := length (List.filter (fun kf => isInputSignal (snd kf))
                                    instance)).
  set (w1 := if devMode && Nat.eqb count 0
             then warn (noInputsMessage P) w else w).
  assert (Hw1 : heap w1 = heap w
                /\ console w1
                   = console w ++ (if devMode && Nat.eqb count 0
                                   then [noInputsMessage P] else [])).
  { unfold w1. destruct (devMode && Nat.eqb count 0); simpl; [now split|].
    now rewrite app_nil_r. }
  destruct Hw1 as [Hh1 Hc1].
  unfold protoSet. rewrite Hh1, Ho, Hs. simpl.
  set (w2 := with_heap (insert proto (set_value (Some wrapped) o)) w1).
  destruct (hookCalls_fold proto (injectHooks hookPath) w2)
    as (_ & Hh & Hc & _).
  assert (Hcell : heap (snd (publicFactory proto
                               (fold_left (callHook proto)
                                          (injectHooks hookPath) w2)))
                    !! proto
                  = Some (set_props false false (set_value (Some wrapped) o))).
  { unfold publicFactory, with_heap. simpl. rewrite lookup_alter_eq, Hh.
    unfold w2. simpl. now rewrite lookup_insert_eq. }
  eexists. split; [reflexivity|]. split; [|split].
  - change (readValue proto
              (snd (publicFactory proto
                      (fold_left (callHook proto) (injectHooks hookPath) w2)))
            = Some wrapped).
    unfold readValue. now rewrite Hcell.
  - exact Hcell.
  - transitivity (console (fold_left (callHook proto) (injectHooks hookPath)
                                     w2)); [reflexivity|].
    rewrite Hc. exact Hc1.
Qed.

(** X11.  After the initializer has returned, a [State.inject()] that
    reaches the node, required or optional, returns the same state object
    and changes nothing. *)
Theorem initState_then_injectState devMode proto hookPath instance w o
    (path : list (option Ref)) (opts : InjectOptions) :
  heap w !! proto = Some o -> value o = None -> has_set o = true ->
  nearest (if skipSelf opts then tail path else path) = Some proto ->
  exists w1,
    initState devMode P (Some proto) hookPath instance w = Returned (proto, w1)
    /\ injectState P path opts w1 = Returned (Some proto, w1).
Proof.
  intros Ho Hv Hs Hn.
  destruct (initState_wraps_inputs devMode proto hookPath instance w o
              Ho Hv Hs) as (w1 & Hinit & Hval & Hcell & _).
  exists w1. split; [exact Hinit|].
  rewrite (injectState_found P path opts w1 proto Hn), Hval.
  unfold publicFactory. simpl. f_equal. f_equal.
  apply with_heap_id, alter_id. intros x Hx.
  rewrite Hcell in Hx. now injection Hx as <-.
Qed.

End FirstInitialization.

(** The root node, initialized in development mode with an instance that
    has one input, and with one that has none. *)
Lemma initState_wraps_inputs_witness :
  heap (snd oneNode) !! 0 = Some (initialState ParentDir [] [] emptyWorld)
  /\ value (initialState ParentDir [] [] emptyWorld) = None
  /\ has_set (initialState ParentDir [] [] emptyWorld) = true
  /\ (exists w',
        initState true ParentDir (Some 0) [] dirInstance (snd oneNode)
          = Returned (0, w')
        /\ readValue 0 w'
           = Some [("disabled", Controlled (controlledInput (VBool false)));
                   ("enabled", Plain (VBool true))]
        /\ console w' = [])
  /\ (exists w',
        initState true ParentDir (Some 0) [] [("enabled", Plain (VBool true))]
                  (snd oneNode) = Returned (0, w')
        /\ console w' = [noInputsMessage ParentDir]).
Proof.
  assert (Hheap : heap (snd oneNode) !! 0
                  = Some (initialState ParentDir [] [] emptyWorld))
    by (apply mount_new, chain_ok_nil).
  split; [exact Hheap|]. split; [reflexivity|]. split; [reflexivity|]. split.
  - destruct (initState_wraps_inputs ParentDir true 0 [] dirInstance
                (snd oneNode) _ Hheap eq_refl eq_refl)
      as (w' & Hinit & Hval & _ & Hcon).
    exists w'. split; [exact Hinit|]. split; [exact Hval|].
    etransitivity; [exact Hcon|reflexivity].
  - destruct (initState_wraps_inputs ParentDir true 0 []
                [("enabled", Plain (VBool true))]
                (snd oneNode) _ Hheap eq_refl eq_refl)
      as (w' & Hinit & _ & _ & Hcon).
    exists w'. split; [exact Hinit|].
    etransitivity; [exact Hcon|reflexivity].
Defined.

(** The root node, initialized and then looked up from a scope below it. *)
Lemma initState_then_injectState_witness :
  heap (snd oneNode) !! 0 = Some (initialState ParentDir [] [] emptyWorld)
  /\ value (initialState ParentDir [] [] emptyWorld) = None
  /\ has_set (initialState ParentDir [] [] emptyWorld) = true
  /\ nearest (if skipSelf noOptions then tail [None; Some 0]
              else [None; Some 0]) = Some 0
  /\ exists w1,
       initState false ParentDir (Some 0) [] dirInstance (snd oneNode)
         = Returned (0, w1)
       /\ injectState ParentDir [None; Some 0] noOptions w1
          = Returned (Some 0, w1).
Proof.
  assert (Hheap : heap (snd oneNode) !! 0
                  = Some (initialState ParentDir [] [] emptyWorld))
    by (apply mount_new, chain_ok_nil).
  split; [exact Hheap|]. split; [reflexivity|]. split; [reflexivity|].
  split; [reflexivity|].
  exact (initState_then_injectState ParentDir false 0 [] dirInstance
           (snd oneNode) _ [None; Some 0] noOptions
           Hheap eq_refl eq_refl eq_refl).
Defined.

(** ** What no step changes *)

Section Steps.

Implicit Types (w : World) (r : Ref).

Lemma evolves_refl w o : evolves w o o.
Proof. repeat split; auto. Qed.

Lemma evolves_set_props w s u o : evolves w o (set_props s u o).
Proof. repeat split; auto. Qed.

Lemma cellStep_same w r (x : option ProtoStateObj) : cellStep w r x x.
Proof. destruct x; simpl; [apply evolves_refl|exact I]. Qed.

Lemma cellStep_publicFactory w proto r :
  cellStep w r (heap w !! r) (heap (snd (publicFactory proto w)) !! r).
Proof.
  unfold publicFactory, with_heap. simpl. rewrite lookup_alter.
  case_decide; [subst|apply cellStep_same].
  destruct (heap w !! r); simpl; [apply evolves_set_props|exact I].
Qed.

Lemma wf_step w w' : wf w -> step w w' -> wf w'.
Proof.
  intros Hwf Hstep.
  destruct Hstep
    as [P chain cpath w Hok|n w|? ? ? ? ? w ? w' Hinit|proto w|tok a w].
  - now apply wf_mount.
  - now apply wf_onDestroy.
  - now apply (wf_initState _ _ _ _ _ _ _ _ Hwf Hinit).
  - now apply wf_publicFactory.
  - now apply wf_childrenOfType.
Qed.

(** Every cell of the heap, across one step. *)
Lemma step_cells w w' r :
  wf w -> step w w' -> cellStep w r (heap w !! r) (heap w' !! r).
Proof.
  intros Hwf Hstep.
  destruct Hstep
    as [P chain cpath w Hok|n w|devMode P self hookPath instance w handle w' Hinit
       |proto w|tok a w].
  - destruct (heap w !! r) as [o|] eqn:Hr.
    + rewrite (mount_old P chain cpath w r o Hwf Hok Hr). simpl.
      repeat split; auto. simpl. intros e He.
      destruct (onChain r chain); [|now left].
      apply in_app_or in He as [He|[<-|[]]]; [now left|right].
      simpl. lia.
    + destruct (decide (r = next w)) as [->|Hne].
      * rewrite (mount_new P chain cpath w Hok). simpl. auto.
      * destruct (mount_effect P (Some chain) cpath w)
          as (_ & _ & _ & _ & _ & Hh).
        rewrite Hh, lookup_insert_ne, Hr by congruence. exact I.
  - unfold destroy. rewrite onDestroy_heap.
    destruct (heap w !! r) as [o|]; simpl; [|exact I].
    repeat split; auto. simpl. intros e He. left.
    destruct (Nat.eqb _ 0); [exact He|].
    now apply List.filter_In in He as [He _].
  - unfold initState in Hinit. destruct self as [proto|]; [|discriminate].
    destruct (readValue proto w) as [current|] eqn:Hv.
    + destruct devMode; [discriminate|]. injection Hinit as _ <-.
      apply cellStep_publicFactory.
    + destruct (wrapInputs instance) as [wrapped inputCount].
      set (w1 := if devMode && Nat.eqb inputCount 0
                 then warn (noInputsMessage P) w else w) in Hinit.
      assert (Hh1 : heap w1 = heap w)
        by (unfold w1; now destruct (devMode && Nat.eqb inputCount 0)).
      unfold protoSet in Hinit. rewrite Hh1 in Hinit.
      destruct (heap w !! proto) as [o|] eqn:Ho; [|discriminate].
      destruct (has_set o); [|discriminate]. simpl in Hinit.
      injection Hinit as _ <-.
      set (w2 := with_heap (insert proto (set_value (Some wrapped) o)) w1).
      destruct (hookCalls_fold proto (injectHooks hookPath) w2)
        as (_ & Hh & _).
      unfold publicFactory, with_heap. simpl. rewrite lookup_alter, Hh.
      unfold w2. simpl. rewrite Hh1.
      assert (Hnull : value o = None)
        by (unfold readValue in Hv; now rewrite Ho in Hv).
      case_decide as Hr; [subst r|].
      * rewrite lookup_insert_eq, Ho. simpl. repeat split; auto.
        simpl. intros v Hsome. congruence.
      * rewrite lookup_insert_ne by congruence. apply cellStep_same.
  - apply cellStep_publicFactory.
  - unfold childrenOfType.
    destruct (childrenByTypeCache a !! tok); simpl; apply cellStep_same.
Qed.

(** The caches of [childrenOfType] are sound in every world the tree can
    get into. *)
Lemma initState_signals devMode P self hookPath instance w handle w' :
  initState devMode P self hookPath instance w = Returned (handle, w') ->
  computeds w' = computeds w /\ next w' = next w.
Proof.
  unfold initState.
  destruct self as [proto|]; [|discriminate].
  destruct (readValue proto w) as [current|].
  - destruct devMode; [discriminate|]. intros [= _ <-]. split; reflexivity.
  - destruct (wrapInputs instance) as [wrapped inputCount].
    set (w1 := if devMode && Nat.eqb inputCount 0
               then warn (noInputsMessage P) w else w).
    assert (Hw1 : computeds w1 = computeds w /\ next w1 = next w)
      by (unfold w1; destruct (devMode && Nat.eqb inputCount 0);
          split; reflexivity).
    destruct Hw1 as [Hc1 Hn1].
    unfold protoSet. destruct (heap w1 !! proto) as [o|]; [|discriminate].
    destruct (has_set o); [|discriminate]. simpl. intros [= _ <-].
    set (w2 := with_heap (insert proto (set_value (Some wrapped) o)) w1).
    destruct (hookCalls_fold proto (injectHooks hookPath) w2)
      as (_ & _ & _ & Hn & Hc).
    unfold publicFactory, with_heap. simpl. rewrite Hc, Hn.
    unfold w2. simpl. now split.
Qed.

Lemma step_signals w w' h c :
  wf w -> step w w' ->
  computeds w !! h = Some c -> computeds w' !! h = Some c.
Proof.
  intros Hwf Hstep Hh.
  assert (Hlt : h < next w) by now apply (wf_computeds w Hwf) in Hh.
  destruct Hstep
    as [P chain cpath w Hok|n w|devMode P self hookPath instance w handle w' Hinit
       |proto w|tok a w].
  - destruct (mount_effect P (Some chain) cpath w) as (_ & _ & Hcs & _).
    rewrite Hcs, lookup_insert_ne; [exact Hh|lia].
  - unfold destroy, onDestroy.
    destruct (updates_rest
                (List.filter (fun p => negb (same_object p (node_selfEntry n))))
                (node_chain n) w) as (Hcs & _).
    now rewrite Hcs.
  - destruct (initState_signals _ _ _ _ _ _ _ _ Hinit) as [Hcs _].
    now rewrite Hcs.
  - exact Hh.
  - unfold childrenOfType. destruct (childrenByTypeCache a !! tok); [exact Hh|].
    simpl. rewrite lookup_insert_ne; [exact Hh|lia].
Qed.

Lemma step_views w w' r o' :
  wf w -> step w w' -> heap w' !! r = Some o' ->
  (exists o, heap w !! r = Some o /\ ancestry o' = ancestry o)
  \/ childrenByTypeCache (ancestry o') = ∅.
Proof.
  intros Hwf Hstep Hr.
  pose proof (step_cells w w' r Hwf Hstep) as Hcell.
  pose proof (wf_step w w' Hwf Hstep) as Hwf'.
  rewrite Hr in Hcell.
  destruct (heap w !! r) as [o|] eqn:Ho; simpl in Hcell.
  { left. exists o. split; [reflexivity|apply Hcell]. }
  destruct Hcell as (_ & _ & Hge).
  pose proof (wf_heap w' Hwf' r o' Hr) as Hlt.
  destruct Hstep
    as [P chain cpath w Hok|n w|devMode P self hookPath instance w handle w' Hinit
       |proto w|tok a w].
  - right.
    destruct (mount_heap_inv P chain cpath w r o' Hwf Hok Hr)
      as [[-> ->]|(_ & o & Ho' & _)]; [reflexivity|congruence].
  - exfalso. unfold destroy, onDestroy in Hlt.
    destruct (updates_rest
                (List.filter (fun p => negb (same_object p (node_selfEntry n))))
                (node_chain n) w) as (_ & Hn & _).
    rewrite Hn in Hlt. lia.
  - exfalso. destruct (initState_signals _ _ _ _ _ _ _ _ Hinit) as [_ Hn].
    rewrite Hn in Hlt. lia.
  - exfalso. simpl in Hlt. lia.
  - exfalso. unfold childrenOfType in Hr.
    destruct (childrenByTypeCache a !! tok); simpl in Hr; congruence.
Qed.

Lemma cachesOk_step w w' : wf w -> cachesOk w -> step w w' -> cachesOk w'.
Proof.
  intros Hwf Hc Hstep r o' Hr tok h Hh.
  destruct (step_views w w' r o' Hwf Hstep Hr) as [(o & Ho & Ha)|Hempty].
  - rewrite Ha in Hh |- *.
    exact (step_signals w w' h _ Hwf Hstep (Hc r o Ho tok h Hh)).
  - rewrite Hempty in Hh. now rewrite lookup_empty in Hh.
Qed.

Lemma cachesOk_reachable w : reachable w -> cachesOk w.
Proof.
  induction 1 as [|w w' Hreach IH Hstep]; [exact cachesOk_empty|].
  exact (cachesOk_step w w' (wf_reachable w Hreach) IH Hstep).
Qed.

(** X12.  In every world the tree can get into, the entries of a descendant
    set are distinct objects, no node is among its own descendants, and no
    two nodes are among each other's. *)
Theorem reachable_descendants_acyclic w r e :
  reachable w -> In e (readAllChildren r w) ->
  state e <> r
  /\ List.NoDup (map entry_ref (readAllChildren r w))
  /\ (forall e', In e' (readAllChildren (state e) w) -> state e' <> r).
Proof.
  intros Hreach.
  assert (Hyoung : forall r e, In e (readAllChildren r w) -> r < state e).
  { clear r e. induction Hreach as [|w w' Hreach IH Hstep]; intros r e.
    - unfold readAllChildren. simpl. rewrite lookup_empty. intros [].
    - pose proof (wf_reachable w Hreach) as Hwf.
      pose proof (step_cells w w' r Hwf Hstep) as Hcell.
      unfold readAllChildren. specialize (IH r e). unfold readAllChildren in IH.
      destruct (heap w !! r) as [o|] eqn:Ho, (heap w' !! r) as [o'|];
        simpl in Hcell; try contradiction; try (intros []).
      + destruct Hcell as (_ & _ & _ & _ & Hgain). intros He.
        destruct (Hgain e He) as [Hold|Hnew]; [now apply IH|].
        apply (wf_heap w Hwf) in Ho. lia.
      + destruct Hcell as (_ & -> & _). intros []. }
  intros He. split; [apply Hyoung in He; lia|]. split.
  - unfold readAllChildren.
    destruct (heap w !! r) as [o|] eqn:Ho; [|constructor].
    apply (wf_distinct w (wf_reachable w Hreach) r o Ho).
  - intros e' He' Heq. apply Hyoung in He, He'. lia.
Qed.


End Steps.

(** The two nested nodes: the inner one is among the descendants of the
    root. *)
Lemma reachable_descendants_acyclic_witness :
  reachable (snd twoNodes)
  /\ In (node_selfEntry (fst twoNodes)) (readAllChildren 0 (snd twoNodes))
  /\ state (node_selfEntry (fst twoNodes)) <> 0.
Proof.
  assert (Hreach : reachable (snd twoNodes)).
  { apply (reachable_step (snd oneNode)).
    - apply (reachable_step emptyWorld); [constructor|].
      apply step_mount, chain_ok_nil.
    - apply step_mount, wf_oneNode. }
  assert (Hin : In (node_selfEntry (fst twoNodes))
                   (readAllChildren 0 (snd twoNodes)))
    by (left; reflexivity).
  split; [exact Hreach|]. split; [exact Hin|].
  destruct (reachable_descendants_acyclic _ 0 _ Hreach Hin) as (Hne & _).
  exact Hne.
Defined.

